(** * game.js: the GameClient of the world-map game client

    A shallow embedding of [src/game.js].  The [GameClient] object becomes a
    record, every method a function from the record to the new record and
    the list of effects the call performed on the outside world (console,
    socket, 2D context, image decoder, event default).

    Modelling conventions
    - JS numbers are exact rationals ([Q]).  Pixel coordinates and canvas
      extents are integers; on them, and on their halves, the double
      arithmetic of the source is exact.
    - JS objects used as dictionaries ([players], [avatars], [frames],
      [loadedImages], [keysPressed]) are [gmap string _] over their own
      properties.  The names the server chooses (ids, avatar names,
      directions) are ordinary names, none of which names a member of
      [Object.prototype].  The key of a keyboard event is any string, and
      the read [this.keysPressed[key]] also finds the members every object
      inherits ([truthyAt]).
    - [Object.keys] and [Object.values] enumerate in the order of the map,
      which is not the property order of JavaScript (integer-like keys
      ascending, then insertion order).  The order only decides which
      number a decoded image gets and in which order the players are
      painted; no property below fixes it, apart from the image numbers
      that show in the worked examples.
    - [new Image()] allocates an object with an identity: images carry the
      number the allocator gave them ([nextImage] in the state). *)

From Stdlib Require Import QArith Qminmax Lqa.
From stdpp Require Import gmap strings list fin_maps.

(** Numbers stay symbolic under simplification. *)
#[local] Arguments Qplus : simpl never.
#[local] Arguments Qminus : simpl never.
#[local] Arguments Qmult : simpl never.
#[local] Arguments Qdiv : simpl never.
#[local] Arguments Qopp : simpl never.
#[local] Arguments Qinv : simpl never.
#[local] Arguments Qmax : simpl never.
#[local] Arguments Qmin : simpl never.
#[local] Arguments Qle_bool : simpl never.

Open Scope string_scope.
Open Scope list_scope.

(** ** Data model *)

(** An [Image] element: its identity, its [src], and whether the browser
    has finished loading it ([complete]). *)
Record Image := mkImage {
  img_id : nat;
  img_src : string;
  img_complete : bool
}.

(** A player record; [animationFrame] may be missing. *)
Record Player := mkPlayer {
  p_id : string;
  p_x : Q;
  p_y : Q;
  p_facing : string;
  p_animationFrame : option nat;
  p_username : string;
  p_avatar : string
}.

(** An avatar as the server sends it ([name], [frames]) plus the cache the
    loader adds ([loadedImages], absent until the loader has run). *)
Record Avatar := mkAvatar {
  a_name : string;
  a_frames : gmap string (list string);
  a_loadedImages : option (gmap string (list Image))
}.

(** Messages, client to server. *)
Inductive ClientMessage :=
| JoinGame (username : string)
| Move (direction : string)
| Stop.

(** Messages, server to client, as [JSON.parse] delivers them, by their
    [action] (and [success] for [join_game]). *)
Inductive ServerMessage :=
| JoinGameOk (playerId : string) (players : gmap string Player)
             (avatars : gmap string Avatar)
| JoinGameFailed (error : string)
| PlayerJoined (player : Player) (avatar : Avatar)
| PlayersMoved (players : gmap string Player)
| PlayerLeft (playerId : string)
| OtherAction (action : string).

(** Calls on the 2D context. *)
Inductive CanvasOp :=
| ClearRect (x y w h : Q)
| DrawImage9 (img : Image) (sx sy sw sh dx dy dw dh : Q)
| DrawImage5 (img : Image) (dx dy dw dh : Q)
| SetFillStyle (v : string)
| SetStrokeStyle (v : string)
| SetLineWidth (v : Q)
| SetFont (v : string)
| SetTextAlign (v : string)
| StrokeText (text : string) (x y : Q)
| FillText (text : string) (x y : Q).

(** What a handler does to the outside world. *)
Inductive Effect :=
| ConsoleLog (text : string)
| ConsoleError (text : string)
| SocketSend (m : ClientMessage)
| Canvas (op : CanvasOp)
| Decode (img : Image)
| PreventDefault.

(** The fields of [this]. [canvasWidth] and [canvasHeight] are
    [this.canvas.width] and [this.canvas.height]; [socket] tells whether
    [this.socket] holds a WebSocket; [null] fields are [None]. [myPlayer]
    is the record that [players] held under [myPlayerId] when the join was
    answered (the handlers never write into a player record, so the
    reference and the copy agree). [nextImage] is the image allocator. *)
Record GameClient := mkGameClient {
  canvasWidth : Q;
  canvasHeight : Q;
  worldImage : option Image;
  worldSize : Q;
  socket : bool;
  connected : bool;
  myPlayerId : option string;
  myPlayer : option Player;
  players : gmap string Player;
  avatars : gmap string Avatar;
  viewportX : Q;
  viewportY : Q;
  keysPressed : gmap string bool;
  currentDirection : option string;
  nextImage : nat
}.

(** Assignments to the fields of [this]. *)
Definition set_canvasWidth (v : Q) (s : GameClient) : GameClient :=
  mkGameClient v (canvasHeight s) (worldImage s) (worldSize s) (socket s)
    (connected s) (myPlayerId s) (myPlayer s) (players s) (avatars s)
    (viewportX s) (viewportY s) (keysPressed s) (currentDirection s)
    (nextImage s).
Definition set_canvasHeight (v : Q) (s : GameClient) : GameClient :=
  mkGameClient (canvasWidth s) v (worldImage s) (worldSize s) (socket s)
    (connected s) (myPlayerId s) (myPlayer s) (players s) (avatars s)
    (viewportX s) (viewportY s) (keysPressed s) (currentDirection s)
    (nextImage s).
Definition set_worldImage (v : option Image) (s : GameClient) : GameClient :=
  mkGameClient (canvasWidth s) (canvasHeight s) v (worldSize s) (socket s)
    (connected s) (myPlayerId s) (myPlayer s) (players s) (avatars s)
    (viewportX s) (viewportY s) (keysPressed s) (currentDirection s)
    (nextImage s).
Definition set_socket (v : bool) (s : GameClient) : GameClient :=
  mkGameClient (canvasWidth s) (canvasHeight s) (worldImage s) (worldSize s) v
    (connected s) (myPlayerId s) (myPlayer s) (players s) (avatars s)
    (viewportX s) (viewportY s) (keysPressed s) (currentDirection s)
    (nextImage s).
Definition set_connected (v : bool) (s : GameClient) : GameClient :=
  mkGameClient (canvasWidth s) (canvasHeight s) (worldImage s) (worldSize s)
    (socket s) v (myPlayerId s) (myPlayer s) (players s) (avatars s)
    (viewportX s) (viewportY s) (keysPressed s) (currentDirection s)
    (nextImage s).
Definition set_myPlayerId (v : option string) (s : GameClient) : GameClient :=
  mkGameClient (canvasWidth s) (canvasHeight s) (worldImage s) (worldSize s)
    (socket s) (connected s) v (myPlayer s) (players s) (avatars s)
    (viewportX s) (viewportY s) (keysPressed s) (currentDirection s)
    (nextImage s).
Definition set_myPlayer (v : option Player) (s : GameClient) : GameClient :=
  mkGameClient (canvasWidth s) (canvasHeight s) (worldImage s) (worldSize s)
    (socket s) (connected s) (myPlayerId s) v (players s) (avatars s)
    (viewportX s) (viewportY s) (keysPressed s) (currentDirection s)
    (nextImage s).
Definition set_players (v : gmap string Player) (s : GameClient) : GameClient :=
  mkGameClient (canvasWidth s) (canvasHeight s) (worldImage s) (worldSize s)
    (socket s) (connected s) (myPlayerId s) (myPlayer s) v (avatars s)
    (viewportX s) (viewportY s) (keysPressed s) (currentDirection s)
    (nextImage s).
Definition set_avatars (v : gmap string Avatar) (s : GameClient) : GameClient :=
  mkGameClient (canvasWidth s) (canvasHeight s) (worldImage s) (worldSize s)
    (socket s) (connected s) (myPlayerId s) (myPlayer s) (players s) v
    (viewportX s) (viewportY s) (keysPressed s) (currentDirection s)
    (nextImage s).
Definition set_viewportX (v : Q) (s : GameClient) : GameClient :=
  mkGameClient (canvasWidth s) (canvasHeight s) (worldImage s) (worldSize s)
    (socket s) (connected s) (myPlayerId s) (myPlayer s) (players s)
    (avatars s) v (viewportY s) (keysPressed s) (currentDirection s)
    (nextImage s).
Definition set_viewportY (v : Q) (s : GameClient) : GameClient :=
  mkGameClient (canvasWidth s) (canvasHeight s) (worldImage s) (worldSize s)
    (socket s) (connected s) (myPlayerId s) (myPlayer s) (players s)
    (avatars s) (viewportX s) v (keysPressed s) (currentDirection s)
    (nextImage s).
Definition set_keysPressed (v : gmap string bool) (s : GameClient) : GameClient :=
  mkGameClient (canvasWidth s) (canvasHeight s) (worldImage s) (worldSize s)
    (socket s) (connected s) (myPlayerId s) (myPlayer s) (players s)
    (avatars s) (viewportX s) (viewportY s) v (currentDirection s)
    (nextImage s).
Definition set_currentDirection (v : option string) (s : GameClient) : GameClient :=
  mkGameClient (canvasWidth s) (canvasHeight s) (worldImage s) (worldSize s)
    (socket s) (connected s) (myPlayerId s) (myPlayer s) (players s)
    (avatars s) (viewportX s) (viewportY s) (keysPressed s) v
    (nextImage s).
Definition set_nextImage (v : nat) (s : GameClient) : GameClient :=
  mkGameClient (canvasWidth s) (canvasHeight s) (worldImage s) (worldSize s)
    (socket s) (connected s) (myPlayerId s) (myPlayer s) (players s)
    (avatars s) (viewportX s) (viewportY s) (keysPressed s)
    (currentDirection s) v.

(** ** Methods as state transformers with an effect trace *)

Definition M (A : Type) : Type := GameClient → A * GameClient * list Effect.

(** The value, the state and the effects of a run. *)
Definition value_of {A} (r : A * GameClient * list Effect) : A := r.1.1.
Definition state_of {A} (r : A * GameClient * list Effect) : GameClient := r.1.2.
Definition effects_of {A} (r : A * GameClient * list Effect) : list Effect := r.2.

#[export] Instance M_ret : MRet M := λ A a s, (a, s, []).

#[export] Instance M_bind : MBind M := λ A B k m s,
  let '(a, s1, e1) := m s in
  let '(b, s2, e2) := k a s1 in
  (b, s2, e1 ++ e2).

Definition gets {A} (f : GameClient → A) : M A := λ s, (f s, s, []).
Definition modify (f : GameClient → GameClient) : M unit := λ s, (tt, f s, []).
Definition emit (e : Effect) : M unit := λ s, (tt, s, [e]).

(** [xs.forEach(f)] *)
Fixpoint forEach {A} (xs : list A) (f : A → M unit) : M unit :=
  match xs with
  | [] => mret tt
  | x :: xs' => f x ;; forEach xs' f
  end.

(** [xs.map(f)] with an effectful callback. *)
Fixpoint arrayMap {A B} (f : A → M B) (xs : list A) : M (list B) :=
  match xs with
  | [] => mret []
  | x :: xs' => y ← f x; ys ← arrayMap f xs'; mret (y :: ys)
  end.

(** Comparisons of numbers, as booleans. *)
Definition Qlt_bool (a b : Q) : bool := negb (Qle_bool b a).
Definition Qgt_bool (a b : Q) : bool := Qlt_bool b a.

(** [Object.assign(target, source)]: every key of [source] is written
    into [target]. *)
Definition Object_assign {V} (target source : gmap string V) : gmap string V :=
  source ∪ target.

(** [Object.keys(o)] and [Object.values(o)], in the order of the map. *)
Definition Object_keys {V} (o : gmap string V) : list string :=
  (map_to_list o).*1.
Definition Object_values {V} (o : gmap string V) : list V :=
  (map_to_list o).*2.
Definition Object_entries {V} (o : gmap string V) : list (string * V) :=
  map_to_list o.

(** *** Asset loader *)

(** [const img = new Image(); img.src = base64Data; return img;] *)
Definition decodeFrame (base64Data : string) : M Image :=
  n ← gets nextImage;
  modify (set_nextImage (S n));;
  let img := mkImage n base64Data false in
  emit (Decode img);;
  mret img.

(** The body of [Object.keys(avatar.frames).forEach(direction => ...)],
    building the object assigned to [avatar.loadedImages]; each direction
    comes with [avatar.frames[direction]]. *)
Fixpoint loadDirections (dirs : list (string * list string))
    (loadedImages : gmap string (list Image)) : M (gmap string (list Image)) :=
  match dirs with
  | [] => mret loadedImages
  | (direction, frames) :: dirs' =>
      imgs ← arrayMap decodeFrame frames;
      loadDirections dirs' (<[direction := imgs]> loadedImages)
  end.

(** The callback of [Object.values(this.avatars).forEach(avatar => ...)].
    The avatar object is the one stored under [key]; writing its
    [loadedImages] field updates the entry of [this.avatars] in place. *)
Definition loadAvatar (entry : string * Avatar) : M unit :=
  let '(key, avatar) := entry in
  match a_loadedImages avatar with
  | Some _ => mret tt
  | None =>
      loadedImages ← loadDirections (Object_entries (a_frames avatar)) ∅;
      avs ← gets avatars;
      modify (set_avatars
        (<[key := mkAvatar (a_name avatar) (a_frames avatar) (Some loadedImages)]> avs))
  end.

Definition loadAvatarImages : M unit :=
  avs ← gets avatars;
  forEach (Object_entries avs) loadAvatar.

(** *** Viewport *)

Definition updateViewport : M unit :=
  me ← gets myPlayer;
  match me with
  | None => mret tt
  | Some myPlayer =>
      (* Center viewport on player *)
      w ← gets canvasWidth;
      modify (set_viewportX (p_x myPlayer - w / 2)%Q);;
      h ← gets canvasHeight;
      modify (set_viewportY (p_y myPlayer - h / 2)%Q);;
      (* Clamp viewport to world boundaries *)
      vx ← gets viewportX; ws ← gets worldSize; w ← gets canvasWidth;
      modify (set_viewportX (Qmax 0 (Qmin vx (ws - w)))%Q);;
      vy ← gets viewportY; ws ← gets worldSize; h ← gets canvasHeight;
      modify (set_viewportY (Qmax 0 (Qmin vy (ws - h)))%Q)
  end.

(** *** Renderer *)

Definition drawPlayer (player : Player) : M unit :=
  avs ← gets avatars;
  match avs !! p_avatar player with
  | None => mret tt
  | Some avatar =>
    match a_loadedImages avatar with
    | None => mret tt
    | Some loadedImages =>
      vx ← gets viewportX; vy ← gets viewportY;
      w ← gets canvasWidth; h ← gets canvasHeight;
      (* Convert world coordinates to screen coordinates *)
      let screenX := (p_x player - vx)%Q in
      let screenY := (p_y player - vy)%Q in
      (* Check if player is visible on screen *)
      if Qlt_bool screenX (-50)%Q || Qgt_bool screenX (w + 50)%Q ||
         Qlt_bool screenY (-50)%Q || Qgt_bool screenY (h + 50)%Q
      then mret tt
      else
        let direction := p_facing player in
        let frameIndex := default 0%nat (p_animationFrame player) in
        match loadedImages !! direction with
        | None => mret tt
        | Some avatarImages =>
          match avatarImages !! frameIndex with
          | None => mret tt
          | Some avatarImg =>
            let avatarSize := 32%Q in
            let drawX := (screenX - avatarSize / 2)%Q in
            let drawY := (screenY - avatarSize)%Q in
            emit (Canvas (DrawImage5 avatarImg drawX drawY avatarSize avatarSize));;
            emit (Canvas (SetFillStyle "white"));;
            emit (Canvas (SetStrokeStyle "black"));;
            emit (Canvas (SetLineWidth 2%Q));;
            emit (Canvas (SetFont "12px Arial"));;
            emit (Canvas (SetTextAlign "center"));;
            let textX := screenX in
            let textY := (drawY - 5)%Q in
            emit (Canvas (StrokeText (p_username player) textX textY));;
            emit (Canvas (FillText (p_username player) textX textY))
          end
        end
    end
  end.

Definition draw : M unit :=
  bg ← gets worldImage;
  match bg with
  | None => mret tt
  | Some worldImage =>
      vx ← gets viewportX; vy ← gets viewportY;
      w ← gets canvasWidth; h ← gets canvasHeight;
      (* Clear canvas *)
      emit (Canvas (ClearRect 0%Q 0%Q w h));;
      (* Draw the world map with viewport offset *)
      emit (Canvas (DrawImage9 worldImage vx vy w h 0%Q 0%Q w h));;
      (* Draw all players *)
      ps ← gets players;
      forEach (Object_values ps) drawPlayer
  end.

(** *** World-state reducer *)

Definition handleServerMessage (message : ServerMessage) : M unit :=
  emit (ConsoleLog "Received message:");;
  match message with
  | JoinGameOk playerId ps avs =>
      modify (set_myPlayerId (Some playerId));;
      modify (set_players ps);;
      modify (set_avatars avs);;
      ps' ← gets players;
      modify (set_myPlayer (ps' !! playerId));;
      loadAvatarImages;;
      updateViewport;;
      draw
  | JoinGameFailed error =>
      emit (ConsoleError ("Failed to join game: " +:+ error))
  | PlayerJoined player avatar =>
      ps ← gets players;
      modify (set_players (<[p_id player := player]> ps));;
      avs ← gets avatars;
      modify (set_avatars (<[a_name avatar := avatar]> avs));;
      loadAvatarImages;;
      draw
  | PlayersMoved moved =>
      ps ← gets players;
      modify (set_players (Object_assign ps moved));;
      updateViewport;;
      draw
  | PlayerLeft playerId =>
      ps ← gets players;
      modify (set_players (delete playerId ps));;
      draw
  | OtherAction _ => mret tt
  end.

(** *** Input controller *)

Definition sendMoveCommand (direction : string) : M unit :=
  emit (SocketSend (Move direction));;
  modify (set_currentDirection (Some direction)).

Definition sendStopCommand : M unit :=
  emit (SocketSend Stop);;
  modify (set_currentDirection None).

(** The [switch (key)] of [handleKeyDown]. *)
Definition keyDirection (key : string) : option string :=
  if String.eqb key "ArrowUp" then Some "up"
  else if String.eqb key "ArrowDown" then Some "down"
  else if String.eqb key "ArrowLeft" then Some "left"
  else if String.eqb key "ArrowRight" then Some "right"
  else None.

Definition handleKeyDown (key : string) : M unit :=
  c ← gets connected; sock ← gets socket;
  if negb c || negb sock then mret tt
  else
    match keyDirection key with
    | Some direction =>
        emit PreventDefault;;
        kp ← gets keysPressed;
        modify (set_keysPressed (<[key := true]> kp));;
        sendMoveCommand direction
    | None => mret tt
    end.

Definition movementKeys : list string :=
  ["ArrowUp"; "ArrowDown"; "ArrowLeft"; "ArrowRight"].

(** [Object.keys(this.keysPressed).some(k => [...].includes(k))] *)
Definition hasMovementKeys (kp : gmap string bool) : bool :=
  existsb (λ k, bool_decide (k ∈ movementKeys)) (Object_keys kp).

(** The members a plain object inherits from [Object.prototype]; each is
    a function or an object, hence truthy. *)
Definition objectPrototypeMembers : list string :=
  ["constructor"; "hasOwnProperty"; "isPrototypeOf"; "propertyIsEnumerable";
   "toLocaleString"; "toString"; "valueOf"; "__proto__";
   "__defineGetter__"; "__defineSetter__"; "__lookupGetter__";
   "__lookupSetter__"].

(** The test [if (o[key])] on an object literal holding booleans: the own
    property when there is one, else the inherited member if [key] names
    one, else [undefined]. *)
Definition truthyAt (o : gmap string bool) (key : string) : bool :=
  match o !! key with
  | Some v => v
  | None => bool_decide (key ∈ objectPrototypeMembers)
  end.

Definition handleKeyUp (key : string) : M unit :=
  c ← gets connected; sock ← gets socket;
  if negb c || negb sock then mret tt
  else
    kp ← gets keysPressed;
    if truthyAt kp key then
      (* [delete] removes an own property and nothing else *)
      modify (set_keysPressed (delete key kp));;
      kp' ← gets keysPressed;
      (* If no movement keys are pressed, send stop command *)
      if negb (hasMovementKeys kp') then sendStopCommand else mret tt
    else mret tt.

(** *** Construction and the event loop *)

Definition joinGame : M unit :=
  emit (SocketSend (JoinGame "Sharan")).

(** The state the constructor leaves, for a window of [innerWidth] by
    [innerHeight]: the fields as initialised, then [init()], which sizes
    the canvas, creates the world image and the socket, and installs the
    listeners. The world image is allocated here and is not yet loaded. *)
Definition construct (innerWidth innerHeight : Q) : GameClient :=
  mkGameClient innerWidth innerHeight
    (Some (mkImage 0 "world.jpg" false)) 2048%Q
    true false None None ∅ ∅ 0%Q 0%Q ∅ None 1.

(** What the browser delivers to the listeners. A socket payload that
    does not parse is [None]. *)
Inductive Event :=
| Resize (innerWidth innerHeight : Q)
| WorldImageLoad
| WorldImageError
| SocketOpen
| SocketMessage (data : option ServerMessage)
| SocketClose
| SocketError
| KeyDown (key : string)
| KeyUp (key : string).

Definition dispatch (ev : Event) : M unit :=
  match ev with
  | Resize innerWidth innerHeight =>
      modify (set_canvasWidth innerWidth);;
      modify (set_canvasHeight innerHeight);;
      updateViewport;;
      draw
  | WorldImageLoad =>
      (* the browser completes the image, then calls [onload] *)
      bg ← gets worldImage;
      modify (set_worldImage
        ((λ i, mkImage (img_id i) (img_src i) true) <$> bg));;
      draw
  | WorldImageError =>
      emit (ConsoleError "Failed to load world map image")
  | SocketOpen =>
      emit (ConsoleLog "Connected to game server");;
      modify (set_connected true);;
      joinGame
  | SocketMessage (Some message) => handleServerMessage message
  | SocketMessage None =>
      emit (ConsoleError "Error parsing server message:")
  | SocketClose =>
      emit (ConsoleLog "Disconnected from game server");;
      modify (set_connected false)
  | SocketError =>
      emit (ConsoleError "WebSocket error:")
  | KeyDown key => handleKeyDown key
  | KeyUp key => handleKeyUp key
  end.

Definition run (evs : list Event) : M unit := forEach evs dispatch.

(** The background asset is loaded once the browser has completed the
    world image. *)
Definition worldImageLoaded (s : GameClient) : bool :=
  match worldImage s with
  | Some img => img_complete img
  | None => false
  end.

(** ** Definitions used to state the properties *)

(** The guard of the key handlers, [this.connected && this.socket]. *)
Definition ready (s : GameClient) : bool := connected s && socket s.

(** Closed forms of what the asset loader computes when the allocator
    stands at [n]: the images made for a list of frames, for the
    directions of an avatar, and for the entries of the avatar mapping. *)

(** The images [frames.map(...)] allocates, counting from [n]. *)
Fixpoint decoded (n : nat) (frames : list string) : list Image :=
  match frames with
  | [] => []
  | base64Data :: frames' => mkImage n base64Data false :: decoded (S n) frames'
  end.

(** The number of frames of a list of directions. *)
Definition frameCount (dirs : list (string * list string)) : nat :=
  sum_list (length <$> dirs.*2).

(** The object assigned to [loadedImages], built over [acc]. *)
Fixpoint dirsLoaded (n : nat) (dirs : list (string * list string))
    (acc : gmap string (list Image)) : gmap string (list Image) :=
  match dirs with
  | [] => acc
  | (d, fs) :: dirs' =>
      dirsLoaded (n + length fs) dirs' (<[d := decoded n fs]> acc)
  end.

(** The images decoded for these directions, in order. *)
Fixpoint dirsDecoded (n : nat) (dirs : list (string * list string)) : list Image :=
  match dirs with
  | [] => []
  | (d, fs) :: dirs' => decoded n fs ++ dirsDecoded (n + length fs) dirs'
  end.

(** The avatar once the loader has filled its cache. *)
Definition markLoaded (n : nat) (a : Avatar) : Avatar :=
  mkAvatar (a_name a) (a_frames a)
    (Some (dirsLoaded n (Object_entries (a_frames a)) ∅)).

(** The images decoded for one avatar: none when it is marked loaded. *)
Definition avatarDecoded (n : nat) (a : Avatar) : list Image :=
  match a_loadedImages a with
  | Some _ => []
  | None => dirsDecoded n (Object_entries (a_frames a))
  end.

(** The avatar mapping after the loader has visited the entries [es]. *)
Fixpoint avsLoaded (n : nat) (es : list (string * Avatar))
    (avs : gmap string Avatar) : gmap string Avatar :=
  match es with
  | [] => avs
  | (k, a) :: es' =>
      avsLoaded (n + length (avatarDecoded n a)) es'
        (match a_loadedImages a with
         | Some _ => avs
         | None => <[k := markLoaded n a]> avs
         end)
  end.

(** The images decoded while visiting the entries [es], in order. *)
Fixpoint avsDecoded (n : nat) (es : list (string * Avatar)) : list Image :=
  match es with
  | [] => []
  | (k, a) :: es' =>
      avatarDecoded n a ++ avsDecoded (n + length (avatarDecoded n a)) es'
  end.

(** What the loader is expected to decode and to cache. *)

(** All the frames of an avatar, direction by direction. *)
Definition framesOf (a : Avatar) : list string :=
  concat (Object_values (a_frames a)).

(** The frames the loader has still to decode. *)
Definition pendingFrames (avs : gmap string Avatar) : list string :=
  flat_map (λ a, match a_loadedImages a with
                 | Some _ => []
                 | None => framesOf a
                 end) (Object_values avs).

(** The image handles cached for the frames of an avatar, in the order of
    [framesOf]. *)
Definition cachedHandles (a : Avatar) : list Image :=
  match a_loadedImages a with
  | Some loadedImages =>
      flat_map (λ d, default [] (loadedImages !! d)) (Object_keys (a_frames a))
  | None => []
  end.

(** An event other than a successful [join_game] response. *)
Definition beforeJoin (ev : Event) : bool :=
  match ev with
  | SocketMessage (Some (JoinGameOk _ _ _)) => false
  | _ => true
  end.

(** The part of the state the viewport recompute reads and writes. *)
Definition view (s : GameClient) : option Player * Q * Q :=
  (myPlayer s, viewportX s, viewportY s).

(** No local player is recorded and the viewport offsets are [(x, y)]. *)
Definition unjoined (x y : Q) (s : GameClient) : Prop :=
  view s = (None, x, y).

(** Running [m] keeps the state property [P]. *)
Definition preserves {A} (P : GameClient → Prop) (m : M A) : Prop :=
  ∀ s, P s → P (state_of (m s)).

(** The state holds a world image object. *)
Definition hasWorldImage (s : GameClient) : Prop := is_Some (worldImage s).

(** ** A small session, used to instantiate the properties *)

Definition example_player : Player :=
  mkPlayer "1" 100 100 "down" None "Sharan" "hero".

Definition example_avatar : Avatar :=
  mkAvatar "hero" {[ "down" := ["AAA"; "BBB"]; "up" := ["CCC"] ]} None.

Definition example_join : ServerMessage :=
  JoinGameOk "1" {[ "1" := example_player ]} {[ "hero" := example_avatar ]}.

(** An 800 by 600 window, the socket open, the join answered; the world
    image has not been loaded. *)
Definition example_session : GameClient :=
  state_of (run [SocketOpen; SocketMessage (Some example_join)]
              (construct 800 600)).

(** ** Definitions used to state the further properties *)

(** Kinds of effects. *)
Definition isCanvas (e : Effect) : bool :=
  match e with Canvas _ => true | _ => false end.

Definition isDecode (e : Effect) : bool :=
  match e with Decode _ => true | _ => false end.

Definition isSend (e : Effect) : bool :=
  match e with SocketSend _ => true | _ => false end.

Definition isJoinRequest (e : Effect) : bool :=
  match e with SocketSend (JoinGame _) => true | _ => false end.

Definition isSocketOpen (ev : Event) : bool :=
  match ev with SocketOpen => true | _ => false end.

Definition isKeyEvent (ev : Event) : bool :=
  match ev with KeyDown _ | KeyUp _ => true | _ => false end.

(** The directions of the [move] command. *)
Definition directions : list string := ["up"; "down"; "left"; "right"].

(** An effect that is not a send, or sends one of the three commands of
    the protocol: the join request of the fixed user, a move in one of the
    four directions, a stop. *)
Definition protocolEffect (e : Effect) : bool :=
  match e with
  | SocketSend (JoinGame username) => bool_decide (username = "Sharan")
  | SocketSend (Move direction) => bool_decide (direction ∈ directions)
  | _ => true
  end.

(** Every effect of [m], from every state, satisfies [Q]. *)
Definition emits {A} (Q : Effect → bool) (m : M A) : Prop :=
  ∀ s, forallb Q (effects_of (m s)) = true.

(** Whatever the state before, [P] holds after [m]. *)
Definition establishes {A} (P : GameClient → Prop) (m : M A) : Prop :=
  ∀ s, P (state_of (m s)).

(** The last thing [m] does is to draw the state it leaves. *)
Definition endsWithDraw (m : M unit) : Prop :=
  ∀ s, ∃ before,
    effects_of (m s) = before ++ effects_of (draw (state_of (m s))).

(** The events whose handlers redraw. *)
Definition redraws (ev : Event) : bool :=
  match ev with
  | Resize _ _ | WorldImageLoad => true
  | SocketMessage (Some (JoinGameOk _ _ _))
  | SocketMessage (Some (PlayerJoined _ _))
  | SocketMessage (Some (PlayersMoved _))
  | SocketMessage (Some (PlayerLeft _)) => true
  | _ => false
  end.

(** Every avatar of the mapping is marked loaded. *)
Definition allLoaded (avs : gmap string Avatar) : Prop :=
  ∀ k a, avs !! k = Some a → is_Some (a_loadedImages a).

(** The offset [Math.max(0, Math.min(c - extent / 2, size - extent))]. *)
Definition clampedOffset (c extent size : Q) : Q :=
  Qmax 0 (Qmin (c - extent / 2) (size - extent)).

(** When a local player is recorded, the viewport offsets are the ones
    the recompute gives for that record and the current canvas. *)
Definition viewportSynced (s : GameClient) : Prop :=
  ∀ p, myPlayer s = Some p →
    viewportX s = clampedOffset (p_x p) (canvasWidth s) (worldSize s) ∧
    viewportY s = clampedOffset (p_y p) (canvasHeight s) (worldSize s).

(** What holds of the viewport in a running client. *)
Definition viewportInvariant (s : GameClient) : Prop :=
  worldSize s = 2048%Q ∧
  (0 <= viewportX s)%Q ∧ (0 <= viewportY s)%Q ∧
  viewportSynced s.

(** The held-key record and the current direction agree: only arrow keys
    are recorded, each with [true]; a direction is current exactly when a
    key is recorded; and the direction is one of the four. *)
Definition inputConsistent (s : GameClient) : Prop :=
  (∀ k v, keysPressed s !! k = Some v → k ∈ movementKeys ∧ v = true) ∧
  (currentDirection s = None ↔ keysPressed s = ∅) ∧
  (∀ d, currentDirection s = Some d → d ∈ directions).

(** * Properties *)

(** ** Running the methods *)

Lemma run_bind {A B} (m : M A) (k : A → M B) (s : GameClient) :
  (m ≫= k) s =
    (value_of (k (value_of (m s)) (state_of (m s))),
     state_of (k (value_of (m s)) (state_of (m s))),
     effects_of (m s) ++ effects_of (k (value_of (m s)) (state_of (m s)))).
Proof.
  unfold mbind, M_bind, value_of, state_of, effects_of.
  destruct (m s) as [[a s1] e1]; cbn.
  destruct (k a s1) as [[b s2] e2]; reflexivity.
Qed.

Lemma state_of_bind {A B} (m : M A) (k : A → M B) (s : GameClient) :
  state_of ((m ≫= k) s) = state_of (k (value_of (m s)) (state_of (m s))).
Proof. rewrite run_bind. reflexivity. Qed.

Lemma effects_of_bind {A B} (m : M A) (k : A → M B) (s : GameClient) :
  effects_of ((m ≫= k) s) =
    effects_of (m s) ++ effects_of (k (value_of (m s)) (state_of (m s))).
Proof. rewrite run_bind. reflexivity. Qed.

Lemma value_of_bind {A B} (m : M A) (k : A → M B) (s : GameClient) :
  value_of ((m ≫= k) s) = value_of (k (value_of (m s)) (state_of (m s))).
Proof. rewrite run_bind. reflexivity. Qed.

(** When the first command is known to do nothing, the sequence is its
    continuation. *)
Lemma run_bind_skip {A B} (m : M A) (k : A → M B) (s : GameClient) (a : A) :
  m s = (a, s, []) → (m ≫= k) s = k a s.
Proof.
  intros Hm. unfold mbind, M_bind. rewrite Hm.
  destruct (k a s) as [[b s2] e2]; reflexivity.
Qed.

Ltac run_js :=
  unfold mbind, mret, M_bind, M_ret, gets, modify, emit; cbn.

(** ** Viewport *)

(** Without a local player the recompute returns at once. *)
Lemma updateViewport_no_player (s : GameClient) :
  myPlayer s = None → updateViewport s = (tt, s, []).
Proof. intros H. unfold updateViewport. run_js. rewrite H. reflexivity. Qed.

(** With a local player it stores the two clamped offsets and touches
    nothing else. *)
Lemma updateViewport_run (s : GameClient) (p : Player) :
  myPlayer s = Some p →
  updateViewport s =
    (tt,
     set_viewportY
       (Qmax 0 (Qmin (p_y p - canvasHeight s / 2) (worldSize s - canvasHeight s)))
       (set_viewportX
          (Qmax 0 (Qmin (p_x p - canvasWidth s / 2) (worldSize s - canvasWidth s)))
          s),
     []).
Proof. intros H. unfold updateViewport. run_js. rewrite H. reflexivity. Qed.

(** How [Math.max(0, Math.min(c, hi))] clamps. *)
Lemma clamp_bounds (c hi : Q) :
  (0 <= Qmax 0 (Qmin c hi) <= Qmax 0 hi)%Q.
Proof.
  split; [apply Q.le_max_l|].
  apply Q.max_le_compat_l, Q.le_min_r.
Qed.

Lemma clamp_cases (c hi : Q) :
  ((hi < 0 → Qmax 0 (Qmin c hi) == 0) ∧
   (c < 0 → Qmax 0 (Qmin c hi) == 0) ∧
   (0 <= c <= hi → Qmax 0 (Qmin c hi) == c) ∧
   (0 <= hi < c → Qmax 0 (Qmin c hi) == hi))%Q.
Proof.
  destruct (Q.min_spec c hi) as [[H1 E1]|[H1 E1]];
  destruct (Q.max_spec 0 (Qmin c hi)) as [[H2 E2]|[H2 E2]];
  rewrite E2; rewrite ?E1; rewrite E1 in H2;
  repeat split; intros; lra.
Qed.

(** C1. With a local player at (x, y), the viewport recompute centres the
    top-left corner on the player (x − canvasWidth/2, y − canvasHeight/2)
    and clamps each axis on its own: the stored offset lies between 0 and
    max(0, worldSize − canvas extent); it is the centred coordinate when
    that lies in the interval, the nearer end of the interval otherwise,
    and 0 whenever the canvas extent exceeds the world size. *)
Theorem updateViewport_clamps (s : GameClient) (p : Player) :
  myPlayer s = Some p →
  let s' := state_of (updateViewport s) in
  let cx := (p_x p - canvasWidth s / 2)%Q in
  let cy := (p_y p - canvasHeight s / 2)%Q in
  let hx := (worldSize s - canvasWidth s)%Q in
  let hy := (worldSize s - canvasHeight s)%Q in
  ((0 <= viewportX s' <= Qmax 0 hx) ∧
   (0 <= viewportY s' <= Qmax 0 hy) ∧
   (worldSize s < canvasWidth s → viewportX s' == 0) ∧
   (worldSize s < canvasHeight s → viewportY s' == 0) ∧
   (cx < 0 → viewportX s' == 0) ∧
   (0 <= cx <= hx → viewportX s' == cx) ∧
   (0 <= hx < cx → viewportX s' == hx) ∧
   (cy < 0 → viewportY s' == 0) ∧
   (0 <= cy <= hy → viewportY s' == cy) ∧
   (0 <= hy < cy → viewportY s' == hy))%Q.
Proof.
  intros H s' cx cy hx hy.
  assert (Hx : viewportX s' = Qmax 0 (Qmin cx hx)).
  { subst s'. rewrite (updateViewport_run s p H). reflexivity. }
  assert (Hy : viewportY s' = Qmax 0 (Qmin cy hy)).
  { subst s'. rewrite (updateViewport_run s p H). reflexivity. }
  rewrite Hx, Hy.
  destruct (clamp_cases cx hx) as (X1 & X2 & X3 & X4).
  destruct (clamp_cases cy hy) as (Y1 & Y2 & Y3 & Y4).
  repeat split; try apply clamp_bounds; try assumption.
  - intros Hw. apply X1. subst hx. lra.
  - intros Hh. apply Y1. subst hy. lra.
Qed.

Lemma updateViewport_clamps_witness :
  myPlayer example_session = Some example_player ∧
  (viewportX (state_of (updateViewport example_session)) == 0 ∧
   viewportY (state_of (updateViewport example_session)) == 0)%Q.
Proof.
  split; [reflexivity|].
  destruct (updateViewport_clamps example_session example_player eq_refl)
    as (_ & _ & _ & _ & X & _ & _ & Y & _).
  split; [apply X|apply Y]; reflexivity.
Defined.

(** Near the far corner of the world both axes stop at the upper end:
    2048 − 800 and 2048 − 600. *)
Example updateViewport_far_corner :
  let s := set_myPlayer (Some (mkPlayer "1" 2000 2040 "down" None "Sharan" "hero"))
             (construct 800 600) in
  (viewportX (state_of (updateViewport s)), viewportY (state_of (updateViewport s)))
  = (1248%Q, 1448%Q).
Proof. reflexivity. Qed.

(** ** Renderer: drawing reads the state and never writes it *)

Lemma forEach_state {A} (f : A → M unit) (xs : list A) (s : GameClient) :
  (∀ x t, state_of (f x t) = t) → state_of (forEach xs f s) = s.
Proof.
  intros Hf. revert s. induction xs as [|x xs IH]; intros s; [reflexivity|].
  cbn [forEach]. rewrite state_of_bind, IH. apply Hf.
Qed.

Lemma drawPlayer_state (player : Player) (s : GameClient) :
  state_of (drawPlayer player s) = s.
Proof.
  unfold drawPlayer. run_js.
  destruct (avatars s !! p_avatar player) as [avatar|]; [|reflexivity].
  destruct (a_loadedImages avatar) as [loadedImages|]; [|reflexivity].
  cbn.
  destruct (_ || _); [reflexivity|].
  destruct (loadedImages !! p_facing player) as [imgs|]; [|reflexivity].
  destruct (imgs !! default 0%nat (p_animationFrame player)); reflexivity.
Qed.

Lemma draw_state (s : GameClient) : state_of (draw s) = s.
Proof.
  unfold draw. rewrite state_of_bind. cbn [gets value_of state_of fst snd].
  destruct (worldImage s) as [img|]; [|reflexivity].
  rewrite !state_of_bind. cbn [gets value_of state_of fst snd emit].
  apply forEach_state. intros; apply drawPlayer_state.
Qed.

(** The guard of [draw]: no world image object, nothing drawn. *)
Lemma draw_no_world_image (s : GameClient) :
  worldImage s = None → draw s = (tt, s, []).
Proof. intros H. unfold draw. run_js. rewrite H. reflexivity. Qed.

(** With a world image object, loaded or not, [draw] clears the canvas and
    blits the viewport rectangle before it draws the players. *)
Lemma draw_with_world_image (s : GameClient) (img : Image) :
  worldImage s = Some img →
  ∃ rest,
    effects_of (draw s) =
      Canvas (ClearRect 0 0 (canvasWidth s) (canvasHeight s))
      :: Canvas (DrawImage9 img (viewportX s) (viewportY s)
                   (canvasWidth s) (canvasHeight s)
                   0 0 (canvasWidth s) (canvasHeight s))
      :: rest.
Proof.
  intros H. unfold draw. rewrite effects_of_bind.
  cbn [gets value_of state_of effects_of fst snd]. rewrite H.
  rewrite !effects_of_bind. cbn [gets emit value_of state_of effects_of fst snd].
  eexists. reflexivity.
Qed.

(** C6. In the example session the world image has not been loaded, and
    [draw] is not a no-op there: it clears the canvas, issues the blit of
    the background and draws the local player with its label. *)
Theorem draw_before_world_image_loaded :
  worldImageLoaded example_session = false ∧
  effects_of (draw example_session) =
    [Canvas (ClearRect 0 0 800 600);
     Canvas (DrawImage9 (mkImage 0 "world.jpg" false) 0 0 800 600 0 0 800 600);
     Canvas (DrawImage5 (mkImage 2 "AAA" false) (168 # 2) 68 32 32);
     Canvas (SetFillStyle "white"); Canvas (SetStrokeStyle "black");
     Canvas (SetLineWidth 2); Canvas (SetFont "12px Arial");
     Canvas (SetTextAlign "center");
     Canvas (StrokeText "Sharan" 100 63);
     Canvas (FillText "Sharan" 100 63)].
Proof. split; vm_compute; reflexivity. Qed.

(** ** World-state reducer *)

Lemma updateViewport_players (s : GameClient) :
  players (state_of (updateViewport s)) = players s.
Proof.
  destruct (myPlayer s) as [p|] eqn:H.
  - rewrite (updateViewport_run s p H). reflexivity.
  - rewrite (updateViewport_no_player s H). reflexivity.
Qed.

Lemma players_moved_state (s : GameClient) (moved : gmap string Player) :
  players (state_of (handleServerMessage (PlayersMoved moved) s)) =
    Object_assign (players s) moved.
Proof.
  unfold handleServerMessage.
  rewrite !state_of_bind. cbn [gets modify emit value_of state_of fst snd].
  rewrite draw_state, updateViewport_players. reflexivity.
Qed.

Lemma player_left_state (s : GameClient) (playerId : string) :
  state_of (handleServerMessage (PlayerLeft playerId) s) =
    set_players (delete playerId (players s)) s.
Proof.
  unfold handleServerMessage.
  rewrite !state_of_bind. cbn [gets modify emit value_of state_of fst snd].
  apply draw_state.
Qed.

(** C2. A [players_moved] message replaces exactly the entries of the ids
    it carries by the records it carries, and every entry whose id is not
    in the message stays as it was. *)
Theorem players_moved_merges (s : GameClient) (moved : gmap string Player) :
  let s' := state_of (handleServerMessage (PlayersMoved moved) s) in
  (∀ id p, moved !! id = Some p → players s' !! id = Some p) ∧
  (∀ id, moved !! id = None → players s' !! id = players s !! id).
Proof.
  intros s'. subst s'. rewrite players_moved_state. unfold Object_assign.
  split.
  - intros id p Hid. apply lookup_union_Some_l, Hid.
  - intros id Hid. apply lookup_union_r, Hid.
Qed.

(** The instance of the specification: from {A:p1, B:p2}, the update
    {B:p2'} gives {A:p1, B:p2'}. *)
Lemma players_moved_example (s : GameClient) (p1 p2 p2' : Player) :
  players s = {[ "A" := p1; "B" := p2 ]} →
  players (state_of (handleServerMessage (PlayersMoved {[ "B" := p2' ]}) s)) =
    {[ "A" := p1; "B" := p2' ]}.
Proof.
  intros H. rewrite players_moved_state, H. unfold Object_assign.
  apply map_eq. intros k.
  destruct (decide (k = "B")) as [->|HB].
  - rewrite lookup_union_l' by (rewrite lookup_singleton_eq; eauto).
    rewrite lookup_singleton_eq.
    rewrite lookup_insert_ne by done. by rewrite lookup_singleton_eq.
  - rewrite lookup_union_r by (by rewrite lookup_singleton_ne).
    destruct (decide (k = "A")) as [->|HA].
    + by rewrite !lookup_insert_eq.
    + rewrite !lookup_insert_ne by done. by rewrite !lookup_singleton_ne.
Qed.

(** C3. A [player_left] message removes the entry of its [playerId] and
    no other; when the mapping has no such entry, the mapping (indeed the
    whole state) after the message is the one before it. *)
Theorem player_left_removes (s : GameClient) (playerId : string) :
  let s' := state_of (handleServerMessage (PlayerLeft playerId) s) in
  players s' !! playerId = None ∧
  (∀ id, id ≠ playerId → players s' !! id = players s !! id) ∧
  (players s !! playerId = None → players s' = players s ∧ s' = s).
Proof.
  intros s'. subst s'. rewrite player_left_state. cbn [players set_players].
  split; [apply lookup_delete_eq|]. split.
  - intros id Hne. apply lookup_delete_ne. congruence.
  - intros Hnone. rewrite (delete_id _ _ Hnone).
    split; [reflexivity|]. destruct s; reflexivity.
Qed.

(** C7. A failed [join_game] response only writes to the console: the
    state after the message is the state before it (player mapping, avatar
    mapping, local player id and record, viewport offsets and all the
    rest), nothing is drawn or decoded, and nothing is sent. *)
Theorem join_failed_changes_nothing (s : GameClient) (error : string) :
  let r := handleServerMessage (JoinGameFailed error) s in
  state_of r = s ∧
  (players (state_of r) = players s ∧ avatars (state_of r) = avatars s ∧
   myPlayerId (state_of r) = myPlayerId s ∧ myPlayer (state_of r) = myPlayer s ∧
   viewportX (state_of r) = viewportX s ∧ viewportY (state_of r) = viewportY s) ∧
  effects_of r = [ConsoleLog "Received message:";
                  ConsoleError ("Failed to join game: " +:+ error)].
Proof.
  intros r.
  assert (E : r = (tt, s, [ConsoleLog "Received message:";
                           ConsoleError ("Failed to join game: " +:+ error)])).
  { subst r. unfold handleServerMessage. run_js. reflexivity. }
  rewrite E. cbn [state_of effects_of fst snd].
  repeat split.
Qed.

(** ** Asset loader *)

Lemma state_eta (s : GameClient) :
  set_nextImage (nextImage s) s = s.
Proof. destruct s; reflexivity. Qed.

Lemma decodeFrame_run (b : string) (s : GameClient) :
  decodeFrame b s =
    (mkImage (nextImage s) b false, set_nextImage (S (nextImage s)) s,
     [Decode (mkImage (nextImage s) b false)]).
Proof. reflexivity. Qed.

Lemma arrayMap_decodeFrame_run (fs : list string) (s : GameClient) :
  arrayMap decodeFrame fs s =
    (decoded (nextImage s) fs,
     set_nextImage (nextImage s + length fs) s,
     Decode <$> decoded (nextImage s) fs).
Proof.
  revert s. induction fs as [|b fs IH]; intros s.
  - cbn. rewrite Nat.add_0_r, state_eta. reflexivity.
  - cbn [arrayMap]. rewrite run_bind, decodeFrame_run.
    cbn [value_of state_of effects_of fst snd].
    rewrite run_bind, IH.
    unfold mret, M_ret.
    cbn [value_of state_of effects_of fst snd nextImage set_nextImage length].
    rewrite app_nil_r, Nat.add_succ_r. reflexivity.
Qed.

Lemma decoded_src (n : nat) (fs : list string) : img_src <$> decoded n fs = fs.
Proof. revert n. induction fs as [|b fs IH]; intros n; cbn; [|rewrite IH]; reflexivity. Qed.

Lemma decoded_id (n : nat) (fs : list string) :
  img_id <$> decoded n fs = seq n (length fs).
Proof. revert n. induction fs as [|b fs IH]; intros n; cbn; [|rewrite IH]; reflexivity. Qed.

Lemma decoded_length (n : nat) (fs : list string) : length (decoded n fs) = length fs.
Proof. rewrite <- (length_fmap img_id), decoded_id. apply length_seq. Qed.

Lemma loadDirections_run (dirs : list (string * list string))
    (acc : gmap string (list Image)) (s : GameClient) :
  loadDirections dirs acc s =
    (dirsLoaded (nextImage s) dirs acc,
     set_nextImage (nextImage s + frameCount dirs) s,
     Decode <$> dirsDecoded (nextImage s) dirs).
Proof.
  revert acc s. induction dirs as [|[d fs] dirs IH]; intros acc s.
  - cbn. unfold frameCount. cbn. rewrite Nat.add_0_r, state_eta. reflexivity.
  - cbn [loadDirections]. rewrite run_bind, arrayMap_decodeFrame_run.
    cbn [value_of state_of effects_of fst snd]. rewrite IH.
    cbn [value_of state_of effects_of fst snd nextImage set_nextImage
         dirsLoaded dirsDecoded].
    unfold frameCount. cbn [fmap list_fmap snd sum_list].
    rewrite fmap_app, Nat.add_assoc. reflexivity.
Qed.

Lemma dirsDecoded_src n dirs : img_src <$> dirsDecoded n dirs = concat dirs.*2.
Proof.
  revert n. induction dirs as [|[d fs] dirs IH]; intros n; [reflexivity|].
  cbn. rewrite fmap_app, decoded_src, IH. reflexivity.
Qed.

Lemma dirsDecoded_id n dirs : img_id <$> dirsDecoded n dirs = seq n (frameCount dirs).
Proof.
  revert n. induction dirs as [|[d fs] dirs IH]; intros n; [reflexivity|].
  cbn [dirsDecoded]. rewrite fmap_app, decoded_id, IH.
  unfold frameCount. cbn [fmap list_fmap snd sum_list]. rewrite seq_app. reflexivity.
Qed.

Lemma dirsDecoded_length n dirs : length (dirsDecoded n dirs) = frameCount dirs.
Proof. rewrite <- (length_fmap img_id), dirsDecoded_id. apply length_seq. Qed.

Lemma dirsLoaded_notin n dirs acc d :
  d ∉ dirs.*1 → dirsLoaded n dirs acc !! d = acc !! d.
Proof.
  revert n acc. induction dirs as [|[d' fs] dirs IH]; intros n acc Hd; [reflexivity|].
  cbn in Hd. apply not_elem_of_cons in Hd as [Hne Hd].
  cbn [dirsLoaded]. rewrite IH by exact Hd. by rewrite lookup_insert_ne.
Qed.

Lemma dirsLoaded_in n dirs acc d fs :
  NoDup dirs.*1 → (d, fs) ∈ dirs →
  ∃ m, dirsLoaded n dirs acc !! d = Some (decoded m fs).
Proof.
  revert n acc. induction dirs as [|[d' fs'] dirs IH]; intros n acc Hnd Hin.
  - by apply elem_of_nil in Hin.
  - cbn in Hnd. apply NoDup_cons in Hnd as [Hd' Hnd]. cbn [dirsLoaded].
    apply elem_of_cons in Hin as [[= <- <-]|Hin].
    + exists n.
      rewrite dirsLoaded_notin by exact Hd'. apply lookup_insert_eq.
    + by apply IH.
Qed.

Lemma dirsLoaded_handles n dirs acc :
  NoDup dirs.*1 →
  flat_map (λ d, default [] (dirsLoaded n dirs acc !! d)) dirs.*1 = dirsDecoded n dirs.
Proof.
  revert n acc. induction dirs as [|[d fs] dirs IH]; intros n acc Hnd; [reflexivity|].
  cbn in Hnd. apply NoDup_cons in Hnd as [Hd Hnd].
  cbn [fmap list_fmap fst flat_map dirsLoaded dirsDecoded].
  rewrite dirsLoaded_notin by exact Hd. rewrite lookup_insert_eq. cbn [default].
  f_equal. by apply IH.
Qed.

Lemma state_eta_assets (s : GameClient) :
  set_avatars (avatars s) (set_nextImage (nextImage s) s) = s.
Proof. destruct s; reflexivity. Qed.

Lemma loadAvatar_run (k : string) (a : Avatar) (s : GameClient) :
  loadAvatar (k, a) s =
    (tt,
     set_avatars
       (match a_loadedImages a with
        | Some _ => avatars s
        | None => <[k := markLoaded (nextImage s) a]> (avatars s)
        end)
       (set_nextImage (nextImage s + length (avatarDecoded (nextImage s) a)) s),
     Decode <$> avatarDecoded (nextImage s) a).
Proof.
  unfold loadAvatar, avatarDecoded.
  destruct (a_loadedImages a) as [L|].
  - cbn [length]. rewrite Nat.add_0_r, state_eta_assets. reflexivity.
  - rewrite run_bind, loadDirections_run.
    cbn [value_of state_of effects_of fst snd].
    rewrite dirsDecoded_length. run_js. rewrite app_nil_r. reflexivity.
Qed.

Lemma forEach_loadAvatar_run (es : list (string * Avatar)) (s : GameClient) :
  forEach es loadAvatar s =
    (tt,
     set_avatars (avsLoaded (nextImage s) es (avatars s))
       (set_nextImage (nextImage s + length (avsDecoded (nextImage s) es)) s),
     Decode <$> avsDecoded (nextImage s) es).
Proof.
  revert s. induction es as [|[k a] es IH]; intros s.
  - cbn. rewrite Nat.add_0_r, state_eta_assets. reflexivity.
  - cbn [forEach]. rewrite run_bind, loadAvatar_run.
    cbn [value_of state_of effects_of fst snd]. rewrite IH.
    cbn [value_of state_of effects_of fst snd nextImage avatars
         set_avatars set_nextImage avsLoaded avsDecoded].
    rewrite fmap_app, length_app, Nat.add_assoc. reflexivity.
Qed.

Lemma loadAvatarImages_run (s : GameClient) :
  loadAvatarImages s =
    (tt,
     set_avatars
       (avsLoaded (nextImage s) (Object_entries (avatars s)) (avatars s))
       (set_nextImage
          (nextImage s +
           length (avsDecoded (nextImage s) (Object_entries (avatars s)))) s),
     Decode <$> avsDecoded (nextImage s) (Object_entries (avatars s))).
Proof.
  unfold loadAvatarImages. rewrite run_bind.
  cbn [gets value_of state_of effects_of fst snd].
  rewrite forEach_loadAvatar_run. reflexivity.
Qed.

Lemma avatarDecoded_src n a :
  img_src <$> avatarDecoded n a =
    match a_loadedImages a with Some _ => [] | None => framesOf a end.
Proof.
  unfold avatarDecoded. destruct (a_loadedImages a); [reflexivity|].
  apply dirsDecoded_src.
Qed.

Lemma avatarDecoded_id n a :
  img_id <$> avatarDecoded n a = seq n (length (avatarDecoded n a)).
Proof.
  unfold avatarDecoded. destruct (a_loadedImages a); [reflexivity|].
  rewrite dirsDecoded_id, dirsDecoded_length. reflexivity.
Qed.

Lemma avsDecoded_src n es :
  img_src <$> avsDecoded n es =
    flat_map (λ a, match a_loadedImages a with
                   | Some _ => []
                   | None => framesOf a
                   end) es.*2.
Proof.
  revert n. induction es as [|[k a] es IH]; intros n; [reflexivity|].
  cbn [avsDecoded fmap list_fmap snd flat_map].
  rewrite fmap_app, avatarDecoded_src, IH. reflexivity.
Qed.

Lemma avsDecoded_id n es :
  img_id <$> avsDecoded n es = seq n (length (avsDecoded n es)).
Proof.
  revert n. induction es as [|[k a] es IH]; intros n; [reflexivity|].
  cbn [avsDecoded]. rewrite fmap_app, avatarDecoded_id, IH, length_app, seq_app.
  reflexivity.
Qed.

Lemma fresh_ids_NoDup (imgs : list Image) (n : nat) :
  img_id <$> imgs = seq n (length imgs) → NoDup imgs.
Proof.
  intros H. apply (NoDup_fmap_1 img_id). rewrite H. apply NoDup_seq.
Qed.

Lemma avsLoaded_notin n es avs k :
  k ∉ es.*1 → avsLoaded n es avs !! k = avs !! k.
Proof.
  revert n avs. induction es as [|[k' a] es IH]; intros n avs Hk; [reflexivity|].
  cbn in Hk. apply not_elem_of_cons in Hk as [Hne Hk].
  cbn [avsLoaded]. rewrite IH by exact Hk.
  destruct (a_loadedImages a); [reflexivity|]. by rewrite lookup_insert_ne.
Qed.

Lemma avsLoaded_in n es avs k a :
  NoDup es.*1 → (k, a) ∈ es →
  ∃ m, avsLoaded n es avs !! k =
         match a_loadedImages a with
         | Some _ => avs !! k
         | None => Some (markLoaded m a)
         end ∧
       avatarDecoded m a ⊆ avsDecoded n es.
Proof.
  revert n avs. induction es as [|[k' a'] es IH]; intros n avs Hnd Hin.
  - by apply elem_of_nil in Hin.
  - cbn in Hnd. apply NoDup_cons in Hnd as [Hk' Hnd]. cbn [avsLoaded avsDecoded].
    apply elem_of_cons in Hin as [[= <- <-]|Hin].
    + exists n. split.
      * rewrite avsLoaded_notin by exact Hk'.
        destruct (a_loadedImages a); [reflexivity|]. apply lookup_insert_eq.
      * intros img Himg. apply elem_of_app. by left.
    + destruct (IH (n + length (avatarDecoded n a'))
                  (match a_loadedImages a' with
                   | Some _ => avs
                   | None => <[k' := markLoaded n a']> avs
                   end) Hnd Hin) as (m & Hm & Hsub).
      exists m. split.
      * rewrite Hm. destruct (a_loadedImages a); [|reflexivity].
        destruct (a_loadedImages a'); [reflexivity|].
        apply lookup_insert_ne. intros ->. apply Hk'.
        apply list_elem_of_fmap. by exists (k, a).
      * intros img Himg. apply elem_of_app. right. by apply Hsub.
Qed.

Lemma forEach_loadAvatar_loaded (es : list (string * Avatar)) (s : GameClient) :
  (∀ k a, (k, a) ∈ es → is_Some (a_loadedImages a)) →
  forEach es loadAvatar s = (tt, s, []).
Proof.
  intros Hall. induction es as [|[k a] es IH]; [reflexivity|].
  cbn [forEach]. rewrite run_bind_skip with (a := tt).
  - apply IH. intros k' a' Hin. apply (Hall k' a'). apply elem_of_cons; by right.
  - destruct (Hall k a) as [L HL]; [apply elem_of_cons; by left|].
    unfold loadAvatar. rewrite HL. reflexivity.
Qed.

Lemma avsLoaded_all_loaded (n : nat) (avs : gmap string Avatar) (k : string) (a1 : Avatar) :
  avsLoaded n (Object_entries avs) avs !! k = Some a1 →
  is_Some (a_loadedImages a1).
Proof.
  unfold Object_entries. intros H1.
  destruct (avs !! k) as [a|] eqn:Hk.
  - apply elem_of_map_to_list in Hk.
    destruct (avsLoaded_in n (map_to_list avs) avs k a
                (NoDup_fst_map_to_list avs) Hk) as (m & Hm & _).
    rewrite H1 in Hm. apply elem_of_map_to_list in Hk.
    destruct (a_loadedImages a) as [L|] eqn:HL.
    + rewrite Hk in Hm. injection Hm as ->. rewrite HL. eauto.
    + injection Hm as ->. cbn. eauto.
  - rewrite avsLoaded_notin in H1; [congruence|].
    intros Hin. apply list_elem_of_fmap in Hin as ([k' a] & -> & Hin).
    apply elem_of_map_to_list in Hin. cbn in Hk. congruence.
Qed.

Lemma markLoaded_handles (m : nat) (a : Avatar) :
  cachedHandles (markLoaded m a) = dirsDecoded m (Object_entries (a_frames a)).
Proof.
  unfold cachedHandles, markLoaded, Object_keys, Object_entries.
  cbn [a_loadedImages a_frames].
  apply dirsLoaded_handles, NoDup_fst_map_to_list.
Qed.

Lemma markLoaded_direction (m : nat) (a : Avatar) (d : string) :
  fmap img_src <$> (dirsLoaded m (Object_entries (a_frames a)) ∅ !! d) =
    a_frames a !! d.
Proof.
  unfold Object_entries.
  destruct (a_frames a !! d) as [fs|] eqn:Hd.
  - apply elem_of_map_to_list in Hd.
    destruct (dirsLoaded_in m _ ∅ d fs (NoDup_fst_map_to_list _) Hd) as (m' & ->).
    cbn. by rewrite decoded_src.
  - rewrite dirsLoaded_notin; [by rewrite lookup_empty|].
    intros Hin. apply list_elem_of_fmap in Hin as ([d' fs] & -> & Hin).
    apply elem_of_map_to_list in Hin. cbn in Hd. congruence.
Qed.

(** C4. Running the loader twice in succession. The second run decodes
    nothing and leaves the state, and with it every cached handle, as the
    first run left it. Over the two runs the decodes are exactly one per
    frame of every avatar that was not yet marked loaded, each into a fresh
    image. Such an avatar ends up marked loaded, caching for each direction
    one handle per frame, in frame order; its handles are pairwise distinct
    and each of them is decoded exactly once. An avatar that was already
    marked loaded is skipped by both runs. *)
Theorem loadAvatarImages_twice (s : GameClient) :
  let r1 := loadAvatarImages s in
  let s1 := state_of r1 in
  let r2 := loadAvatarImages s1 in
  let decodes := effects_of r1 ++ effects_of r2 in
  r2 = (tt, s1, []) ∧
  (∃ imgs, decodes = Decode <$> imgs ∧
           img_src <$> imgs = pendingFrames (avatars s) ∧
           img_id <$> imgs = seq (nextImage s) (length imgs)) ∧
  (∀ key a, avatars s !! key = Some a →
     match a_loadedImages a with
     | Some _ => avatars s1 !! key = Some a
     | None =>
         ∃ a' loadedImages,
           avatars s1 !! key = Some a' ∧
           a_name a' = a_name a ∧ a_frames a' = a_frames a ∧
           a_loadedImages a' = Some loadedImages ∧
           (∀ d, fmap img_src <$> (loadedImages !! d) = a_frames a !! d) ∧
           img_src <$> cachedHandles a' = framesOf a ∧
           NoDup (cachedHandles a') ∧
           (∀ img, img ∈ cachedHandles a' →
              ∃ i, decodes !! i = Some (Decode img) ∧
                   ∀ j, decodes !! j = Some (Decode img) → j = i)
     end).
Proof.
  intros r1 s1 r2 decodes.
  set (es := Object_entries (avatars s)).
  set (imgs := avsDecoded (nextImage s) es).
  assert (E1 : r1 = (tt, set_avatars (avsLoaded (nextImage s) es (avatars s))
                         (set_nextImage (nextImage s + length imgs) s),
                     Decode <$> imgs)) by apply loadAvatarImages_run.
  assert (Ea : avatars s1 = avsLoaded (nextImage s) es (avatars s)).
  { subst s1. rewrite E1. reflexivity. }
  assert (E2 : r2 = (tt, s1, [])).
  { subst r2. unfold loadAvatarImages. rewrite run_bind_skip with (a := avatars s1);
      [|reflexivity].
    apply forEach_loadAvatar_loaded. intros k a1 Hin.
    apply elem_of_map_to_list in Hin. rewrite Ea in Hin.
    by apply avsLoaded_all_loaded in Hin. }
  assert (Ed : decodes = Decode <$> imgs).
  { subst decodes. rewrite E2, E1. cbn [effects_of snd]. apply app_nil_r. }
  assert (Hid : img_id <$> imgs = seq (nextImage s) (length imgs))
    by apply avsDecoded_id.
  assert (Hnd : NoDup decodes).
  { rewrite Ed. apply NoDup_fmap_2; [by intros ?? [=]|].
    by apply fresh_ids_NoDup with (n := nextImage s). }
  split; [exact E2|]. split.
  { exists imgs. split; [exact Ed|]. split; [apply avsDecoded_src|exact Hid]. }
  intros key a Hkey. rewrite Ea.
  apply elem_of_map_to_list in Hkey.
  destruct (avsLoaded_in (nextImage s) es (avatars s) key a
              (NoDup_fst_map_to_list _) Hkey) as (m & Hm & Hsub).
  apply elem_of_map_to_list in Hkey.
  destruct (a_loadedImages a) as [L|] eqn:HL.
  - by rewrite Hm.
  - exists (markLoaded m a), (dirsLoaded m (Object_entries (a_frames a)) ∅).
    split; [exact Hm|]. split; [reflexivity|]. split; [reflexivity|].
    split; [reflexivity|]. split; [apply markLoaded_direction|].
    rewrite markLoaded_handles.
    assert (Hav : avatarDecoded m a = dirsDecoded m (Object_entries (a_frames a))).
    { unfold avatarDecoded. by rewrite HL. }
    split; [apply dirsDecoded_src|]. split.
    + apply fresh_ids_NoDup with (n := m).
      rewrite dirsDecoded_id, dirsDecoded_length. reflexivity.
    + intros img Himg. rewrite <- Hav in Himg. apply Hsub in Himg.
      assert (Hin : Decode img ∈ decodes).
      { rewrite Ed. apply list_elem_of_fmap. by exists img. }
      apply list_elem_of_lookup in Hin as [i Hi]. exists i. split; [exact Hi|].
      intros j Hj. by apply (NoDup_lookup decodes j i (Decode img)).
Qed.

Lemma loadAvatarImages_twice_witness :
  let s := set_avatars {[ "hero" := example_avatar ]} (construct 800 600) in
  let s1 := state_of (loadAvatarImages s) in
  avatars s !! "hero" = Some example_avatar ∧
  loadAvatarImages s1 = (tt, s1, []) ∧
  ∃ a', avatars s1 !! "hero" = Some a' ∧
        img_src <$> cachedHandles a' = framesOf example_avatar ∧
        NoDup (cachedHandles a').
Proof.
  intros s s1. split; [reflexivity|].
  destruct (loadAvatarImages_twice s) as (H2 & _ & Hav).
  split; [exact H2|].
  destruct (Hav "hero" example_avatar eq_refl)
    as (a' & L & Ha' & _ & _ & _ & _ & Hsrc & Hnd & _).
  exists a'. split; [exact Ha'|]. split; [exact Hsrc|exact Hnd].
Defined.

(** ** Input controller *)

Lemma handleKeyDown_not_ready (s : GameClient) (key : string) :
  ready s = false → handleKeyDown key s = (tt, s, []).
Proof.
  unfold ready. intros H. unfold handleKeyDown. run_js.
  destruct (connected s), (socket s); try discriminate; reflexivity.
Qed.

Lemma handleKeyUp_not_ready (s : GameClient) (key : string) :
  ready s = false → handleKeyUp key s = (tt, s, []).
Proof.
  unfold ready. intros H. unfold handleKeyUp. run_js.
  destruct (connected s), (socket s); try discriminate; reflexivity.
Qed.

Lemma hasMovementKeys_true (kp : gmap string bool) :
  hasMovementKeys kp = true ↔ ∃ k, k ∈ movementKeys ∧ is_Some (kp !! k).
Proof.
  unfold hasMovementKeys, Object_keys. rewrite existsb_exists. split.
  - intros (k & Hin & Hk). apply bool_decide_eq_true in Hk.
    exists k. split; [exact Hk|].
    apply list_elem_of_In, list_elem_of_fmap in Hin as ([k' v] & -> & Hkv).
    apply elem_of_map_to_list in Hkv. eauto.
  - intros (k & Hk & [v Hv]). exists k. split; [|by apply bool_decide_eq_true].
    apply list_elem_of_In, list_elem_of_fmap. exists (k, v).
    split; [reflexivity|]. by apply elem_of_map_to_list.
Qed.

Lemma hasMovementKeys_false (kp : gmap string bool) :
  hasMovementKeys kp = false ↔ ∀ k, k ∈ movementKeys → kp !! k = None.
Proof.
  rewrite <- not_true_iff_false, hasMovementKeys_true. split.
  - intros Hno k Hk. destruct (kp !! k) eqn:E; [|reflexivity].
    exfalso. apply Hno. exists k. rewrite E. eauto.
  - intros Hall (k & Hk & [v Hv]). rewrite (Hall k Hk) in Hv. discriminate.
Qed.

(** A release of a key for which [this.keysPressed[key]] is falsy. *)
Lemma handleKeyUp_unset (s : GameClient) (key : string) :
  truthyAt (keysPressed s) key = false → handleKeyUp key s = (tt, s, []).
Proof.
  intros Hk. unfold handleKeyUp. run_js.
  destruct (negb (connected s) || negb (socket s)); [reflexivity|].
  cbn. rewrite Hk. reflexivity.
Qed.

(** A release of a key that has no entry in [keysPressed] and does not
    name an inherited member. *)
Lemma handleKeyUp_not_held (s : GameClient) (key : string) :
  keysPressed s !! key = None → key ∉ objectPrototypeMembers →
  handleKeyUp key s = (tt, s, []).
Proof.
  intros Hk Hkey. apply handleKeyUp_unset. unfold truthyAt. rewrite Hk.
  by apply bool_decide_eq_false.
Qed.

(** A release of a key for which [this.keysPressed[key]] is truthy, with
    the connection ready. *)
Lemma handleKeyUp_set (s : GameClient) (key : string) :
  ready s = true → truthyAt (keysPressed s) key = true →
  handleKeyUp key s =
    if hasMovementKeys (delete key (keysPressed s))
    then (tt, set_keysPressed (delete key (keysPressed s)) s, [])
    else (tt, set_currentDirection None
                (set_keysPressed (delete key (keysPressed s)) s),
          [SocketSend Stop]).
Proof.
  unfold ready. intros Hr Hk. unfold handleKeyUp. run_js.
  destruct (connected s), (socket s); try discriminate. cbn.
  rewrite Hk. cbn.
  destruct (hasMovementKeys _); reflexivity.
Qed.

(** A release of a held key, with the connection ready. *)
Lemma handleKeyUp_held (s : GameClient) (key : string) :
  ready s = true → keysPressed s !! key = Some true →
  handleKeyUp key s =
    if hasMovementKeys (delete key (keysPressed s))
    then (tt, set_keysPressed (delete key (keysPressed s)) s, [])
    else (tt, set_currentDirection None
                (set_keysPressed (delete key (keysPressed s)) s),
          [SocketSend Stop]).
Proof.
  intros Hr Hk. apply handleKeyUp_set; [exact Hr|].
  unfold truthyAt. by rewrite Hk.
Qed.

(** A press of an arrow key, with the connection ready. *)
Lemma handleKeyDown_arrow (s : GameClient) (key direction : string) :
  ready s = true → keyDirection key = Some direction →
  handleKeyDown key s =
    (tt, set_currentDirection (Some direction)
           (set_keysPressed (<[key := true]> (keysPressed s)) s),
     [PreventDefault; SocketSend (Move direction)]).
Proof.
  unfold ready. intros Hr Hk. unfold handleKeyDown. run_js.
  destruct (connected s), (socket s); try discriminate. cbn.
  rewrite Hk. reflexivity.
Qed.

(** C8. While the connection is not ready (not connected, or no socket),
    a key press and a key release send nothing, neither a move nor a
    stop command; they leave the state as it is. *)
Theorem keys_ignored_when_not_ready (s : GameClient) (key : string) :
  connected s = false ∨ socket s = false →
  handleKeyDown key s = (tt, s, []) ∧ handleKeyUp key s = (tt, s, []).
Proof.
  intros H.
  assert (Hr : ready s = false).
  { unfold ready. destruct H as [-> | ->]; [reflexivity|].
    apply andb_false_r. }
  split; [by apply handleKeyDown_not_ready|by apply handleKeyUp_not_ready].
Qed.

Lemma keys_ignored_when_not_ready_witness :
  connected (construct 800 600) = false ∧
  handleKeyDown "ArrowUp" (construct 800 600) = (tt, construct 800 600, []) ∧
  handleKeyUp "ArrowUp" (construct 800 600) = (tt, construct 800 600, []).
Proof.
  split; [reflexivity|].
  apply (keys_ignored_when_not_ready (construct 800 600) "ArrowUp").
  left. reflexivity.
Defined.


(** The same miss for every inherited name: with the connection ready and
    no arrow key recorded, the release sends a stop. *)
Lemma keyup_of_inherited_name (s : GameClient) (key : string) :
  ready s = true → key ∈ objectPrototypeMembers →
  keysPressed s !! key = None → hasMovementKeys (keysPressed s) = false →
  handleKeyUp key s = (tt, set_currentDirection None s, [SocketSend Stop]).
Proof.
  intros Hr Hkey Hk Hm. rewrite handleKeyUp_set; [|exact Hr|].
  - rewrite (delete_id _ _ Hk), Hm. destruct s; reflexivity.
  - unfold truthyAt. rewrite Hk. by apply bool_decide_eq_true.
Qed.

(** An arrow key pressed before the socket opened was never recorded; its
    release after the open sends no stop. *)
Example keyup_of_key_pressed_before_open :
  let s := state_of (run [KeyDown "ArrowUp"; SocketOpen] (construct 800 600)) in
  keysPressed s !! "ArrowUp" = None ∧
  handleKeyUp "ArrowUp" s = (tt, s, []).
Proof. split; reflexivity. Qed.

(** C5. With the connection ready and neither Left nor Right held:
    press Up, press Down, release Up sends the two moves and no stop on
    the release of Up (Down is still held, and "down" is still the
    current direction); the release of Down that follows sends exactly
    one stop. *)
Theorem up_down_release_sequence (s : GameClient) :
  connected s = true → socket s = true →
  keysPressed s !! "ArrowLeft" = None →
  keysPressed s !! "ArrowRight" = None →
  let r1 := handleKeyDown "ArrowUp" s in
  let r2 := handleKeyDown "ArrowDown" (state_of r1) in
  let r3 := handleKeyUp "ArrowUp" (state_of r2) in
  let r4 := handleKeyUp "ArrowDown" (state_of r3) in
  effects_of r1 = [PreventDefault; SocketSend (Move "up")] ∧
  effects_of r2 = [PreventDefault; SocketSend (Move "down")] ∧
  effects_of r3 = [] ∧
  keysPressed (state_of r3) !! "ArrowDown" = Some true ∧
  currentDirection (state_of r3) = Some "down" ∧
  effects_of r4 = [SocketSend Stop] ∧
  currentDirection (state_of r4) = None.
Proof.
  intros Hc Hs HL HR r1 r2 r3 r4.
  assert (Hr : ready s = true) by (unfold ready; rewrite Hc, Hs; reflexivity).
  assert (E1 : r1 = (tt, set_currentDirection (Some "up")
                 (set_keysPressed (<["ArrowUp" := true]> (keysPressed s)) s),
                 [PreventDefault; SocketSend (Move "up")])).
  { subst r1. by apply handleKeyDown_arrow. }
  assert (E2 : r2 = (tt, set_currentDirection (Some "down")
                 (set_keysPressed (<["ArrowDown" := true]>
                    (<["ArrowUp" := true]> (keysPressed s))) s),
                 [PreventDefault; SocketSend (Move "down")])).
  { subst r2. rewrite E1. cbn [state_of fst snd].
    by rewrite handleKeyDown_arrow with (direction := "down"). }
  set (kp2 := <["ArrowDown" := true]> (<["ArrowUp" := true]> (keysPressed s))) in *.
  assert (H3 : hasMovementKeys (delete "ArrowUp" kp2) = true).
  { apply hasMovementKeys_true. exists "ArrowDown". split.
    - unfold movementKeys. set_solver.
    - subst kp2. rewrite lookup_delete_ne by done.
      rewrite lookup_insert_eq. eauto. }
  assert (E3 : r3 = (tt, set_keysPressed (delete "ArrowUp" kp2)
                           (set_currentDirection (Some "down") s), [])).
  { subst r3. rewrite E2. cbn [state_of fst snd].
    rewrite handleKeyUp_held.
    - cbn [keysPressed set_currentDirection set_keysPressed]. fold kp2.
      rewrite H3. reflexivity.
    - exact Hr.
    - cbn [keysPressed set_currentDirection set_keysPressed]. subst kp2.
      rewrite lookup_insert_ne by done. apply lookup_insert_eq. }
  assert (H4 : hasMovementKeys (delete "ArrowDown" (delete "ArrowUp" kp2)) = false).
  { apply hasMovementKeys_false. intros k Hk. unfold movementKeys in Hk.
    repeat (apply elem_of_cons in Hk as [->|Hk]); [ | | | |by apply elem_of_nil in Hk].
    - rewrite lookup_delete_ne by done. apply lookup_delete_eq.
    - apply lookup_delete_eq.
    - rewrite !lookup_delete_ne by done. subst kp2.
      rewrite !lookup_insert_ne by done. exact HL.
    - rewrite !lookup_delete_ne by done. subst kp2.
      rewrite !lookup_insert_ne by done. exact HR. }
  assert (E4 : r4 = (tt, set_currentDirection None
                 (set_keysPressed (delete "ArrowDown" (delete "ArrowUp" kp2)) s),
                 [SocketSend Stop])).
  { subst r4. rewrite E3. cbn [state_of fst snd].
    rewrite handleKeyUp_held.
    - cbn [keysPressed set_currentDirection set_keysPressed].
      rewrite H4. reflexivity.
    - exact Hr.
    - cbn [keysPressed set_currentDirection set_keysPressed]. subst kp2.
      rewrite lookup_delete_ne by done. apply lookup_insert_eq. }
  rewrite E1, E2, E3, E4. cbn. repeat split.
  subst kp2. rewrite lookup_delete_ne by done. apply lookup_insert_eq.
Qed.

Lemma up_down_release_sequence_witness :
  let s := state_of (dispatch SocketOpen (construct 800 600)) in
  let s2 := state_of (handleKeyDown "ArrowDown"
                        (state_of (handleKeyDown "ArrowUp" s))) in
  (connected s = true ∧ socket s = true ∧
   keysPressed s !! "ArrowLeft" = None ∧ keysPressed s !! "ArrowRight" = None) ∧
  effects_of (handleKeyUp "ArrowUp" s2) = [] ∧
  effects_of (handleKeyUp "ArrowDown" (state_of (handleKeyUp "ArrowUp" s2)))
    = [SocketSend Stop].
Proof.
  intros s s2. split; [repeat split|].
  destruct (up_down_release_sequence s eq_refl eq_refl eq_refl eq_refl)
    as (_ & _ & H3 & _ & _ & H4 & _).
  split; [exact H3|exact H4].
Defined.

(** ** The event loop *)

(** The key handlers write [keysPressed] and [currentDirection] only. *)
Lemma handleKeyDown_writes (s : GameClient) (key : string) :
  ∃ kp d, state_of (handleKeyDown key s) =
            set_currentDirection d (set_keysPressed kp s).
Proof.
  destruct (ready s) eqn:Hr; [destruct (keyDirection key) as [dir|] eqn:Hk|].
  - rewrite (handleKeyDown_arrow s key dir Hr Hk). eauto.
  - exists (keysPressed s), (currentDirection s).
    unfold handleKeyDown, ready in *. run_js.
    destruct (connected s), (socket s); try discriminate. cbn. rewrite Hk.
    destruct s; reflexivity.
  - rewrite (handleKeyDown_not_ready s key Hr).
    exists (keysPressed s), (currentDirection s). destruct s; reflexivity.
Qed.

Lemma handleKeyUp_writes (s : GameClient) (key : string) :
  ∃ kp d, state_of (handleKeyUp key s) =
            set_currentDirection d (set_keysPressed kp s).
Proof.
  destruct (ready s) eqn:Hr.
  - destruct (truthyAt (keysPressed s) key) eqn:Hk.
    + rewrite (handleKeyUp_set s key Hr Hk).
      destruct (hasMovementKeys _); [|eauto].
      exists (delete key (keysPressed s)), (currentDirection s).
      destruct s; reflexivity.
    + rewrite (handleKeyUp_unset s key Hk).
      exists (keysPressed s), (currentDirection s). destruct s; reflexivity.
  - rewrite (handleKeyUp_not_ready s key Hr).
    exists (keysPressed s), (currentDirection s). destruct s; reflexivity.
Qed.

Section Preservation.
Variable P : GameClient → Prop.

Lemma preserves_ret {A} (a : A) : preserves P (mret a).
Proof. intros s Hs. exact Hs. Qed.

Lemma preserves_gets {A} (f : GameClient → A) : preserves P (gets f).
Proof. intros s Hs. exact Hs. Qed.

Lemma preserves_emit (e : Effect) : preserves P (emit e).
Proof. intros s Hs. exact Hs. Qed.

Lemma preserves_modify (f : GameClient → GameClient) :
  (∀ s, P s → P (f s)) → preserves P (modify f).
Proof. intros Hf s Hs. apply Hf, Hs. Qed.

Lemma preserves_bind {A B} (m : M A) (k : A → M B) :
  preserves P m → (∀ a, preserves P (k a)) → preserves P (m ≫= k).
Proof. intros Hm Hk s Hs. rewrite state_of_bind. apply Hk, Hm, Hs. Qed.

Lemma preserves_forEach {A} (f : A → M unit) (xs : list A) :
  (∀ x, preserves P (f x)) → preserves P (forEach xs f).
Proof.
  intros Hf. induction xs as [|x xs IH]; cbn [forEach].
  - apply preserves_ret.
  - apply preserves_bind; [apply Hf|intros _; exact IH].
Qed.

Lemma preserves_draw : preserves P draw.
Proof. intros s Hs. by rewrite draw_state. Qed.

(** The loader writes [avatars] and the image allocator only. *)
Hypothesis P_assets :
  ∀ s avs n, P s → P (set_avatars avs (set_nextImage n s)).

Lemma preserves_loadAvatarImages : preserves P loadAvatarImages.
Proof. intros s Hs. rewrite loadAvatarImages_run. by apply P_assets. Qed.

Hypothesis P_input :
  ∀ s kp d, P s → P (set_currentDirection d (set_keysPressed kp s)).

Lemma preserves_handleKeyDown (key : string) : preserves P (handleKeyDown key).
Proof.
  intros s Hs. destruct (handleKeyDown_writes s key) as (kp & d & ->).
  by apply P_input.
Qed.

Lemma preserves_handleKeyUp (key : string) : preserves P (handleKeyUp key).
Proof.
  intros s Hs. destruct (handleKeyUp_writes s key) as (kp & d & ->).
  by apply P_input.
Qed.
End Preservation.

(** Steps through a handler all of whose writes keep the property by
    computation; [viewport] deals with [updateViewport]. *)
Ltac handler_steps viewport :=
  repeat first
    [ viewport
    | apply preserves_draw
    | apply preserves_loadAvatarImages; intros ? ? ? H; exact H
    | apply preserves_handleKeyDown; intros ? ? ? H; exact H
    | apply preserves_handleKeyUp; intros ? ? ? H; exact H
    | apply preserves_ret | apply preserves_gets | apply preserves_emit
    | apply preserves_modify; intros ? H; exact H
    | apply preserves_bind; [|intros ?] ].

Lemma unjoined_updateViewport (x y : Q) :
  preserves (unjoined x y) updateViewport.
Proof.
  intros s Hs. rewrite updateViewport_no_player; [exact Hs|].
  unfold unjoined, view in Hs. congruence.
Qed.

Lemma unjoined_dispatch (x y : Q) (ev : Event) :
  beforeJoin ev = true → preserves (unjoined x y) (dispatch ev).
Proof.
  destruct ev as [w h| | | |[[]|]| | |key|key]; cbn [beforeJoin dispatch];
    intros Hev; try discriminate;
    unfold handleServerMessage, joinGame;
    handler_steps ltac:(apply unjoined_updateViewport).
Qed.

Lemma unjoined_run (x y : Q) (evs : list Event) :
  forallb beforeJoin evs = true → preserves (unjoined x y) (run evs).
Proof.
  unfold run. induction evs as [|ev evs IH]; cbn [forallb forEach]; intros H.
  - apply preserves_ret.
  - apply andb_true_iff in H as [Hev Hevs].
    apply preserves_bind; [by apply unjoined_dispatch|intros _; by apply IH].
Qed.

(** C9. Before a successful join no local player is recorded, and then the
    viewport recompute is a no-op. Whatever resize, socket, image and key
    events the client handles before a [join_game] success, the local
    player stays unset and both viewport offsets keep their initial 0. *)
Theorem viewport_idle_before_join (innerWidth innerHeight : Q) (evs : list Event) :
  forallb beforeJoin evs = true →
  let s := state_of (run evs (construct innerWidth innerHeight)) in
  myPlayer s = None ∧
  updateViewport s = (tt, s, []) ∧
  viewportX s = 0%Q ∧ viewportY s = 0%Q ∧
  (∀ t, myPlayer t = None → updateViewport t = (tt, t, [])).
Proof.
  intros Hevs s.
  assert (Hv : unjoined 0 0 s).
  { subst s. by apply unjoined_run. }
  injection Hv as Hp Hx Hy.
  repeat split; try assumption; [by apply updateViewport_no_player|].
  apply updateViewport_no_player.
Qed.

Lemma viewport_idle_before_join_witness :
  let evs := [Resize 1024 768; SocketOpen; KeyDown "ArrowUp";
              SocketMessage (Some (PlayersMoved {[ "2" := example_player ]}));
              SocketMessage (Some (JoinGameFailed "full"));
              SocketMessage None; Resize 640 480] in
  let s := state_of (run evs (construct 800 600)) in
  forallb beforeJoin evs = true ∧
  viewportX s = 0%Q ∧ viewportY s = 0%Q.
Proof.
  intros evs s. split; [reflexivity|].
  destruct (viewport_idle_before_join 800 600 evs eq_refl) as (_ & _ & X & Y & _).
  split; [exact X|exact Y].
Defined.

Lemma hasWorldImage_updateViewport : preserves hasWorldImage updateViewport.
Proof.
  intros s Hs. destruct (myPlayer s) as [p|] eqn:Hp.
  - rewrite (updateViewport_run s p Hp). exact Hs.
  - rewrite (updateViewport_no_player s Hp). exact Hs.
Qed.

Lemma hasWorldImage_dispatch (ev : Event) : preserves hasWorldImage (dispatch ev).
Proof.
  destruct ev as [w h| | | |[[]|]| | |key|key]; cbn [dispatch];
    unfold handleServerMessage, joinGame;
    try (handler_steps ltac:(apply hasWorldImage_updateViewport); fail).
  intros s [img Himg]. rewrite !state_of_bind.
  cbn [gets modify value_of state_of fst snd]. rewrite draw_state.
  unfold hasWorldImage. cbn [worldImage set_worldImage]. rewrite Himg. cbn. eauto.
Qed.

(** The world image object exists from construction on, so the [null]
    test at the head of [draw] never succeeds in a running client. *)
Lemma worldImage_always_present (innerWidth innerHeight : Q) (evs : list Event) :
  hasWorldImage (state_of (run evs (construct innerWidth innerHeight))).
Proof.
  apply (preserves_forEach hasWorldImage dispatch evs hasWorldImage_dispatch).
  unfold hasWorldImage. cbn. eauto.
Qed.

(** * Further properties *)

(** ** Effects of the methods, by kind *)

Section Emission.
Variable Q : Effect → bool.

Lemma emits_ret {A} (a : A) : emits Q (mret a).
Proof. intros s. reflexivity. Qed.

Lemma emits_gets {A} (f : GameClient → A) : emits Q (gets f).
Proof. intros s. reflexivity. Qed.

Lemma emits_modify (f : GameClient → GameClient) : emits Q (modify f).
Proof. intros s. reflexivity. Qed.

Lemma emits_emit (e : Effect) : Q e = true → emits Q (emit e).
Proof. intros He s. cbn. by rewrite He. Qed.

Lemma emits_bind {A B} (m : M A) (k : A → M B) :
  emits Q m → (∀ a, emits Q (k a)) → emits Q (m ≫= k).
Proof.
  intros Hm Hk s. rewrite effects_of_bind, forallb_app, (Hm s). apply Hk.
Qed.

Lemma emits_forEach {A} (f : A → M unit) (xs : list A) :
  (∀ x, emits Q (f x)) → emits Q (forEach xs f).
Proof.
  intros Hf. induction xs as [|x xs IH]; cbn [forEach].
  - apply emits_ret.
  - apply emits_bind; [apply Hf|intros _; exact IH].
Qed.

Lemma emits_updateViewport : emits Q updateViewport.
Proof.
  intros s. destruct (myPlayer s) as [p|] eqn:Hp.
  - by rewrite (updateViewport_run s p Hp).
  - by rewrite (updateViewport_no_player s Hp).
Qed.
End Emission.

(** Steps through a command whose emitted effects satisfy the predicate
    by computation. *)
Ltac emits_steps :=
  repeat first
    [ apply emits_updateViewport
    | apply emits_ret | apply emits_gets | apply emits_modify
    | apply emits_emit; reflexivity
    | apply emits_bind; [|intros ?] ].

Lemma emits_drawPlayer (Q : Effect → bool) (player : Player) :
  (∀ op, Q (Canvas op) = true) → emits Q (drawPlayer player).
Proof.
  intros HQ. unfold drawPlayer.
  apply emits_bind; [apply emits_gets|intros avs].
  destruct (avs !! p_avatar player) as [avatar|]; [|apply emits_ret].
  destruct (a_loadedImages avatar) as [loadedImages|]; [|apply emits_ret].
  do 4 (apply emits_bind; [apply emits_gets|intros ?]).
  destruct (_ || _); [apply emits_ret|].
  destruct (loadedImages !! p_facing player) as [imgs|]; [|apply emits_ret].
  destruct (imgs !! default 0%nat (p_animationFrame player)); [|apply emits_ret].
  repeat first [ apply emits_emit; apply HQ | apply emits_bind; [|intros ?] ].
Qed.

Lemma emits_draw (Q : Effect → bool) :
  (∀ op, Q (Canvas op) = true) → emits Q draw.
Proof.
  intros HQ. unfold draw.
  apply emits_bind; [apply emits_gets|intros bg].
  destruct bg as [img|]; [|apply emits_ret].
  do 4 (apply emits_bind; [apply emits_gets|intros ?]).
  do 2 (apply emits_bind; [apply emits_emit, HQ|intros ?]).
  apply emits_bind; [apply emits_gets|intros ps].
  apply emits_forEach. intros player. by apply emits_drawPlayer.
Qed.

Lemma emits_loadAvatarImages (Q : Effect → bool) :
  (∀ img, Q (Decode img) = true) → emits Q loadAvatarImages.
Proof.
  intros HQ s. rewrite loadAvatarImages_run. cbn [effects_of snd].
  induction (avsDecoded _ _) as [|img imgs IH]; [reflexivity|].
  cbn. by rewrite HQ.
Qed.

Lemma keyDirection_Some (key direction : string) :
  keyDirection key = Some direction →
  key ∈ movementKeys ∧ direction ∈ directions.
Proof.
  unfold keyDirection, movementKeys, directions.
  destruct (String.eqb key "ArrowUp") eqn:E1;
    [apply String.eqb_eq in E1 as ->; intros [= <-]; split; set_solver|].
  destruct (String.eqb key "ArrowDown") eqn:E2;
    [apply String.eqb_eq in E2 as ->; intros [= <-]; split; set_solver|].
  destruct (String.eqb key "ArrowLeft") eqn:E3;
    [apply String.eqb_eq in E3 as ->; intros [= <-]; split; set_solver|].
  destruct (String.eqb key "ArrowRight") eqn:E4;
    [apply String.eqb_eq in E4 as ->; intros [= <-]; split; set_solver|].
  discriminate.
Qed.

Lemma keyDirection_movementKey (key : string) :
  key ∈ movementKeys → is_Some (keyDirection key).
Proof.
  unfold movementKeys. intros Hk.
  repeat (apply elem_of_cons in Hk as [->|Hk]; [cbn; eauto|]).
  by apply elem_of_nil in Hk.
Qed.

Lemma keyDirection_None (key : string) :
  keyDirection key = None ↔ key ∉ movementKeys.
Proof.
  split.
  - intros Hn Hk. apply keyDirection_movementKey in Hk as [d Hd]. congruence.
  - intros Hk. destruct (keyDirection key) as [d|] eqn:Hd; [|reflexivity].
    apply keyDirection_Some in Hd as [Hd _]. contradiction.
Qed.

Lemma emits_handleKeyDown (Q : Effect → bool) (key : string) :
  Q PreventDefault = true →
  (∀ d, d ∈ directions → Q (SocketSend (Move d)) = true) →
  emits Q (handleKeyDown key).
Proof.
  intros HP HM. unfold handleKeyDown.
  do 2 (apply emits_bind; [apply emits_gets|intros ?]).
  destruct (_ || _); [apply emits_ret|].
  destruct (keyDirection key) as [d|] eqn:Hk; [|apply emits_ret].
  apply keyDirection_Some in Hk as [_ Hd]. unfold sendMoveCommand.
  repeat first
    [ apply emits_gets | apply emits_modify
    | apply emits_emit; first [exact HP|by apply HM]
    | apply emits_bind; [|intros ?] ].
Qed.

Lemma emits_handleKeyUp (Q : Effect → bool) (key : string) :
  Q (SocketSend Stop) = true → emits Q (handleKeyUp key).
Proof.
  intros HS. unfold handleKeyUp.
  do 2 (apply emits_bind; [apply emits_gets|intros ?]).
  destruct (_ || _); [apply emits_ret|].
  apply emits_bind; [apply emits_gets|intros kp].
  destruct (truthyAt kp key); [|apply emits_ret].
  apply emits_bind; [apply emits_modify|intros _].
  apply emits_bind; [apply emits_gets|intros kp'].
  destruct (negb _); [|apply emits_ret]. unfold sendStopCommand.
  apply emits_bind; [by apply emits_emit|intros _; apply emits_modify].
Qed.

(** What every handler emits, given what [Q] says of the effects that can
    occur. *)
Lemma emits_dispatch (Q : Effect → bool) (ev : Event) :
  (∀ text, Q (ConsoleLog text) = true) →
  (∀ text, Q (ConsoleError text) = true) →
  (∀ op, Q (Canvas op) = true) →
  (∀ img, Q (Decode img) = true) →
  (isSocketOpen ev = true → Q (SocketSend (JoinGame "Sharan")) = true) →
  (isKeyEvent ev = true →
   Q PreventDefault = true ∧ Q (SocketSend Stop) = true ∧
   ∀ d, d ∈ directions → Q (SocketSend (Move d)) = true) →
  emits Q (dispatch ev).
Proof.
  intros HL HE HC HD HJ HK.
  destruct ev as [w h| | | |[msg|]| | |key|key]; cbn [dispatch].
  - repeat first [ apply emits_updateViewport | by apply emits_draw
                 | apply emits_modify | apply emits_bind; [|intros ?] ].
  - repeat first [ by apply emits_draw | apply emits_gets | apply emits_modify
                 | apply emits_bind; [|intros ?] ].
  - apply emits_emit, HE.
  - unfold joinGame.
    repeat first [ apply emits_emit; first [apply HL|by apply HJ]
                 | apply emits_modify | apply emits_bind; [|intros ?] ].
  - unfold handleServerMessage.
    apply emits_bind; [apply emits_emit, HL|intros _].
    destruct msg;
      repeat first [ apply emits_updateViewport | by apply emits_draw
                   | by apply emits_loadAvatarImages
                   | apply emits_ret | apply emits_gets | apply emits_modify
                   | apply emits_emit, HE
                   | apply emits_bind; [|intros ?] ].
  - apply emits_emit, HE.
  - repeat first [ apply emits_emit, HL | apply emits_modify
                 | apply emits_bind; [|intros ?] ].
  - apply emits_emit, HE.
  - destruct (HK eq_refl) as (HP & HS & HM). by apply emits_handleKeyDown.
  - destruct (HK eq_refl) as (HP & HS & HM). by apply emits_handleKeyUp.
Qed.

(** X10. [draw] only paints: it leaves the client state as it is and
    everything it does is a call on the 2D context. *)
Theorem draw_only_paints (s : GameClient) :
  state_of (draw s) = s ∧ forallb isCanvas (effects_of (draw s)) = true.
Proof. split; [apply draw_state|]. by apply emits_draw. Qed.

(** X20. Whatever events the client handles, from whatever state,
    everything it sends is a command of the protocol: the join request of
    the fixed user name, a move in one of the four directions, or a stop. *)
Theorem sends_follow_protocol (evs : list Event) (s : GameClient) :
  forallb protocolEffect (effects_of (run evs s)) = true.
Proof.
  revert s. apply emits_forEach. intros ev.
  apply emits_dispatch; try reflexivity.
  intros _. repeat split. intros d Hd. by apply bool_decide_eq_true.
Qed.

(** ** What is sent, and when *)

Lemma filter_none (Q : Effect → bool) (es : list Effect) :
  forallb (λ e, negb (Q e)) es = true → List.filter Q es = [].
Proof.
  induction es as [|e es IH]; [reflexivity|]. cbn.
  intros [He Hes]%andb_true_iff. apply negb_true_iff in He. rewrite He. by apply IH.
Qed.

Lemma join_requests_of_dispatch (ev : Event) (s : GameClient) :
  List.filter isJoinRequest (effects_of (dispatch ev s)) =
    if isSocketOpen ev then [SocketSend (JoinGame "Sharan")] else [].
Proof.
  destruct (isSocketOpen ev) eqn:Hev.
  - destruct ev; try discriminate. reflexivity.
  - apply filter_none.
    apply (emits_dispatch (λ e, negb (isJoinRequest e))); try reflexivity.
    + congruence.
    + intros _. repeat split.
Qed.

(** X19. The join request goes out when the socket opens and at no
    other time: the join requests among the effects of any run are one
    per [open] event, each for the fixed user name. *)
Theorem join_requests_match_opens (evs : list Event) (s : GameClient) :
  List.filter isJoinRequest (effects_of (run evs s)) =
    repeat (SocketSend (JoinGame "Sharan")) (length (List.filter isSocketOpen evs)).
Proof.
  unfold run. revert s. induction evs as [|ev evs IH]; intros s; [reflexivity|].
  cbn [forEach]. rewrite effects_of_bind, List.filter_app, IH.
  rewrite join_requests_of_dispatch. cbn [List.filter].
  destruct (isSocketOpen ev); reflexivity.
Qed.

(** The recompute writes the two viewport offsets only. *)
Lemma preserves_updateViewport (P : GameClient → Prop) :
  (∀ s x y, P s → P (set_viewportY y (set_viewportX x s))) →
  preserves P updateViewport.
Proof.
  intros HP s Hs. destruct (myPlayer s) as [p|] eqn:Hp.
  - rewrite (updateViewport_run s p Hp). by apply HP.
  - by rewrite (updateViewport_no_player s Hp).
Qed.

Lemma disconnected_dispatch (ev : Event) (s : GameClient) :
  isSocketOpen ev = false → connected s = false →
  connected (state_of (dispatch ev s)) = false ∧
  forallb (λ e, negb (isSend e)) (effects_of (dispatch ev s)) = true.
Proof.
  intros Hev Hs.
  assert (Hr : ready s = false) by (unfold ready; by rewrite Hs).
  destruct (isKeyEvent ev) eqn:Hk.
  - destruct ev as [| | | | | | |key|key]; try discriminate; cbn [dispatch].
    + by rewrite handleKeyDown_not_ready.
    + by rewrite handleKeyUp_not_ready.
  - split.
    + generalize s Hs. change (preserves (λ t, connected t = false) (dispatch ev)).
      destruct ev as [w h| | | |[[]|]| | |key|key]; try discriminate;
        cbn [dispatch]; unfold handleServerMessage;
        repeat first
          [ apply preserves_updateViewport; intros ? ? ? H; exact H
          | apply preserves_draw
          | apply preserves_loadAvatarImages; intros ? ? ? H; exact H
          | apply preserves_ret | apply preserves_gets | apply preserves_emit
          | apply preserves_modify; intros ? H; first [exact H|reflexivity]
          | apply preserves_bind; [|intros ?] ].
    + apply (emits_dispatch (λ e, negb (isSend e))); try reflexivity; congruence.
Qed.

(** X18. While the client is not connected it sends nothing: from a
    state that is not connected, whatever events other than the opening of
    the socket it handles (keys, resizes, messages, errors), no command
    goes out and it stays not connected. *)
Theorem nothing_sent_while_disconnected (evs : list Event) (s : GameClient) :
  connected s = false →
  forallb (λ ev, negb (isSocketOpen ev)) evs = true →
  connected (state_of (run evs s)) = false ∧
  forallb (λ e, negb (isSend e)) (effects_of (run evs s)) = true.
Proof.
  unfold run. revert s. induction evs as [|ev evs IH]; intros s Hs Hevs.
  - split; [exact Hs|reflexivity].
  - cbn in Hevs. apply andb_true_iff in Hevs as [Hev Hevs].
    apply negb_true_iff in Hev.
    destruct (disconnected_dispatch ev s Hev Hs) as [Hc He].
    destruct (IH _ Hc Hevs) as [Hc' He'].
    cbn [forEach]. rewrite state_of_bind, effects_of_bind, forallb_app.
    split; [exact Hc'|]. by rewrite He, He'.
Qed.

Lemma nothing_sent_while_disconnected_witness :
  let evs := [KeyDown "ArrowUp"; Resize 1024 768; KeyUp "ArrowUp";
              SocketMessage (Some (PlayerLeft "7")); SocketClose;
              KeyDown "ArrowLeft"] in
  connected (construct 800 600) = false ∧
  forallb (λ e, negb (isSend e)) (effects_of (run evs (construct 800 600))) = true.
Proof.
  intros evs. split; [reflexivity|].
  apply (nothing_sent_while_disconnected evs (construct 800 600)); reflexivity.
Defined.

(** ** Redrawing *)

Lemma endsWithDraw_draw : endsWithDraw draw.
Proof. intros s. exists []. by rewrite draw_state. Qed.

Lemma endsWithDraw_bind {A} (m : M A) (k : A → M unit) :
  (∀ a, endsWithDraw (k a)) → endsWithDraw (m ≫= k).
Proof.
  intros Hk s. rewrite state_of_bind, effects_of_bind.
  destruct (Hk (value_of (m s)) (state_of (m s))) as [before Hb].
  exists (effects_of (m s) ++ before). by rewrite <- app_assoc, <- Hb.
Qed.

(** X9. Every handler that changes what is shown (a resize, the
    world image arriving, a successful join, a player joining, moving or
    leaving) finishes by drawing the state it leaves: the last canvas calls
    of the handler are those of [draw] on the final state. *)
Theorem handlers_end_with_draw (ev : Event) (s : GameClient) :
  redraws ev = true →
  ∃ before,
    effects_of (dispatch ev s) =
      before ++ effects_of (draw (state_of (dispatch ev s))).
Proof.
  intros Hev. revert s. change (endsWithDraw (dispatch ev)).
  destruct ev as [w h| | | |[[]|]| | |key|key]; try discriminate;
    cbn [dispatch]; unfold handleServerMessage;
    repeat first [ apply endsWithDraw_draw | apply endsWithDraw_bind; intros ? ].
Qed.

Lemma handlers_end_with_draw_witness :
  redraws (Resize 1024 768) = true ∧
  ∃ before,
    effects_of (dispatch (Resize 1024 768) example_session) =
      before ++ effects_of (draw (state_of (dispatch (Resize 1024 768) example_session))).
Proof.
  split; [reflexivity|].
  apply (handlers_end_with_draw (Resize 1024 768) example_session). reflexivity.
Defined.

(** ** Invariants of the running client *)

Lemma establishes_bind {A B} (P : GameClient → Prop) (m : M A) (k : A → M B) :
  (∀ a, establishes P (k a)) → establishes P (m ≫= k).
Proof. intros Hk s. rewrite state_of_bind. apply Hk. Qed.

Lemma establishes_then {A B} (P : GameClient → Prop) (m : M A) (k : A → M B) :
  establishes P m → (∀ a, preserves P (k a)) → establishes P (m ≫= k).
Proof. intros Hm Hk s. rewrite state_of_bind. apply Hk, Hm. Qed.

Lemma establishes_preserves {A} (P : GameClient → Prop) (m : M A) :
  establishes P m → preserves P m.
Proof. intros Hm s _. apply Hm. Qed.

Lemma preserves_run (P : GameClient → Prop) (evs : list Event) :
  (∀ ev, preserves P (dispatch ev)) → preserves P (run evs).
Proof. intros H. by apply preserves_forEach. Qed.

(** Steps through a handler whose writes keep the property by
    computation. *)
Ltac keeps_steps :=
  repeat first
    [ apply preserves_updateViewport; intros ? ? ? H; exact H
    | apply preserves_draw
    | apply preserves_loadAvatarImages; intros ? ? ? H; exact H
    | apply preserves_handleKeyDown; intros ? ? ? H; exact H
    | apply preserves_handleKeyUp; intros ? ? ? H; exact H
    | apply preserves_ret | apply preserves_gets | apply preserves_emit
    | apply preserves_modify; intros ? H; exact H
    | apply preserves_bind; [|intros ?] ].

(** *** The viewport *)

Lemma updateViewport_synced : establishes viewportSynced updateViewport.
Proof.
  intros s. destruct (myPlayer s) as [p|] eqn:Hp.
  - rewrite (updateViewport_run s p Hp). intros p' Hp'.
    cbn [state_of fst snd myPlayer set_viewportX set_viewportY] in Hp'.
    assert (p' = p) as -> by congruence. split; reflexivity.
  - rewrite (updateViewport_no_player s Hp). intros p' Hp'.
    cbn [state_of fst snd] in Hp'. congruence.
Qed.

Lemma viewportSynced_dispatch (ev : Event) :
  preserves viewportSynced (dispatch ev).
Proof.
  destruct ev as [w h| | | |[[]|]| | |key|key]; cbn [dispatch];
    unfold handleServerMessage, joinGame;
    try (keeps_steps; fail);
    apply establishes_preserves;
    repeat first
      [ apply establishes_then;
        [apply updateViewport_synced|intros _; apply preserves_draw]
      | apply establishes_bind; intros ? ].
Qed.

Lemma viewportBounds_updateViewport :
  preserves (λ s, worldSize s = 2048%Q ∧ (0 <= viewportX s)%Q ∧ (0 <= viewportY s)%Q)
    updateViewport.
Proof.
  intros s (Hw & Hx & Hy). destruct (myPlayer s) as [p|] eqn:Hp.
  - rewrite (updateViewport_run s p Hp).
    cbn [state_of fst snd worldSize viewportX viewportY set_viewportX set_viewportY].
    split; [exact Hw|]. split; apply Q.le_max_l.
  - by rewrite (updateViewport_no_player s Hp).
Qed.

Lemma viewportBounds_dispatch (ev : Event) :
  preserves (λ s, worldSize s = 2048%Q ∧ (0 <= viewportX s)%Q ∧ (0 <= viewportY s)%Q)
    (dispatch ev).
Proof.
  destruct ev as [w h| | | |[[]|]| | |key|key]; cbn [dispatch];
    unfold handleServerMessage, joinGame;
    repeat first
      [ apply viewportBounds_updateViewport
      | apply preserves_draw
      | apply preserves_loadAvatarImages; intros ? ? ? H; exact H
      | apply preserves_handleKeyDown; intros ? ? ? H; exact H
      | apply preserves_handleKeyUp; intros ? ? ? H; exact H
      | apply preserves_ret | apply preserves_gets | apply preserves_emit
      | apply preserves_modify; intros ? H; exact H
      | apply preserves_bind; [|intros ?] ].
Qed.

Lemma viewportInvariant_run (innerWidth innerHeight : Q) (evs : list Event) :
  viewportInvariant (state_of (run evs (construct innerWidth innerHeight))).
Proof.
  unfold viewportInvariant.
  pose proof (preserves_run _ evs viewportBounds_dispatch
                (construct innerWidth innerHeight)) as HB.
  pose proof (preserves_run _ evs viewportSynced_dispatch
                (construct innerWidth innerHeight)) as HS.
  cbn beta in HB. destruct HB as (Hw & Hx & Hy).
  { cbn. repeat split; discriminate. }
  split; [exact Hw|]. split; [exact Hx|]. split; [exact Hy|].
  apply HS. intros p Hp. discriminate.
Qed.

(** X7. In a running client, whatever events it has handled, the
    world is 2048 wide, both viewport offsets are at least 0, and whenever
    a local player is recorded the offsets are the clamped centring of that
    record on the current canvas, so at most max(0, 2048 − canvas extent):
    the viewport never shows anything beyond the world in a canvas that
    fits in it. *)
Theorem viewport_always_clamped (innerWidth innerHeight : Q) (evs : list Event) :
  let s := state_of (run evs (construct innerWidth innerHeight)) in
  worldSize s = 2048%Q ∧
  (0 <= viewportX s)%Q ∧ (0 <= viewportY s)%Q ∧
  ∀ p, myPlayer s = Some p →
    viewportX s = clampedOffset (p_x p) (canvasWidth s) 2048 ∧
    viewportY s = clampedOffset (p_y p) (canvasHeight s) 2048 ∧
    (viewportX s <= Qmax 0 (2048 - canvasWidth s))%Q ∧
    (viewportY s <= Qmax 0 (2048 - canvasHeight s))%Q.
Proof.
  intros s. destruct (viewportInvariant_run innerWidth innerHeight evs)
    as (Hw & Hx & Hy & Hs). fold s in Hw, Hx, Hy, Hs.
  split; [exact Hw|]. split; [exact Hx|]. split; [exact Hy|].
  intros p Hp. destruct (Hs p Hp) as [HX HY]. rewrite Hw in HX, HY.
  split; [exact HX|]. split; [exact HY|].
  rewrite HX, HY. split; apply clamp_bounds.
Qed.

Lemma viewport_always_clamped_witness :
  let evs := [SocketOpen; SocketMessage (Some example_join); Resize 3000 500;
              SocketMessage (Some (PlayersMoved ∅))] in
  let s := state_of (run evs (construct 800 600)) in
  myPlayer s = Some example_player ∧
  (viewportX s <= Qmax 0 (2048 - canvasWidth s))%Q.
Proof.
  intros evs s. split; [reflexivity|].
  destruct (viewport_always_clamped 800 600 evs) as (_ & _ & _ & H).
  destruct (H example_player eq_refl) as (_ & _ & HX & _). exact HX.
Defined.

(** X8. Recomputing the viewport right after a recompute changes
    nothing: the second call leaves the state of the first. *)
Theorem updateViewport_idempotent (s : GameClient) :
  updateViewport (state_of (updateViewport s)) =
    (tt, state_of (updateViewport s), []).
Proof.
  destruct (myPlayer s) as [p|] eqn:Hp.
  - rewrite (updateViewport_run s p Hp). cbn [state_of fst snd].
    rewrite (updateViewport_run _ p) by exact Hp. reflexivity.
  - rewrite (updateViewport_no_player s Hp). cbn [state_of fst snd].
    by apply updateViewport_no_player.
Qed.

(** *** The avatars *)

(** What the loader leaves in the avatar mapping: every entry keeps its
    key, name and frames and is marked loaded; entries already marked
    loaded are the same records; no entry appears. *)
Lemma loadAvatarImages_avatars (s : GameClient) :
  let s1 := state_of (loadAvatarImages s) in
  (∀ k a, avatars s !! k = Some a →
     ∃ a', avatars s1 !! k = Some a' ∧ a_name a' = a_name a ∧
           a_frames a' = a_frames a ∧ is_Some (a_loadedImages a') ∧
           (is_Some (a_loadedImages a) → a' = a)) ∧
  (∀ k, avatars s !! k = None → avatars s1 !! k = None).
Proof.
  intros s1. subst s1. rewrite loadAvatarImages_run.
  cbn [state_of fst snd avatars set_avatars]. unfold Object_entries. split.
  - intros k a Hk. apply elem_of_map_to_list in Hk.
    destruct (avsLoaded_in (nextImage s) _ (avatars s) k a
                (NoDup_fst_map_to_list _) Hk) as (m & Hm & _).
    apply elem_of_map_to_list in Hk. rewrite Hm.
    destruct (a_loadedImages a) as [L|] eqn:HL.
    + exists a. rewrite HL. eauto 10.
    + exists (markLoaded m a). cbn. repeat split; eauto. by intros [? [=]].
  - intros k Hk. rewrite avsLoaded_notin; [exact Hk|].
    intros Hin. apply list_elem_of_fmap in Hin as ([k' a] & -> & Hin).
    apply elem_of_map_to_list in Hin. cbn in Hk. congruence.
Qed.

Lemma loadAvatarImages_allLoaded :
  establishes (λ s, allLoaded (avatars s)) loadAvatarImages.
Proof.
  intros s k a. rewrite loadAvatarImages_run.
  cbn [state_of fst snd avatars set_avatars]. apply avsLoaded_all_loaded.
Qed.

Lemma allLoaded_dispatch (ev : Event) :
  preserves (λ s, allLoaded (avatars s)) (dispatch ev).
Proof.
  destruct ev as [w h| | | |[[]|]| | |key|key]; cbn [dispatch];
    unfold handleServerMessage, joinGame;
    try (keeps_steps; fail);
    apply establishes_preserves;
    repeat first
      [ apply establishes_then;
        [apply loadAvatarImages_allLoaded|intros _; keeps_steps]
      | apply establishes_bind; intros ? ].
Qed.

(** X6. In a running client, whatever events it has handled, every
    avatar of the mapping is marked loaded: each message that brings
    avatars runs the loader before it returns. *)
Theorem avatars_always_loaded (innerWidth innerHeight : Q) (evs : list Event)
    (k : string) (a : Avatar) :
  avatars (state_of (run evs (construct innerWidth innerHeight))) !! k = Some a →
  is_Some (a_loadedImages a).
Proof.
  revert k a.
  apply (preserves_run _ evs allLoaded_dispatch (construct innerWidth innerHeight)).
  intros k a Hk. cbn in Hk. by rewrite lookup_empty in Hk.
Qed.

Lemma avatars_always_loaded_witness :
  ∃ a, avatars example_session !! "hero" = Some a ∧ is_Some (a_loadedImages a).
Proof.
  eexists. split; [vm_compute; reflexivity|].
  apply (avatars_always_loaded 800 600
           [SocketOpen; SocketMessage (Some example_join)] "hero").
  vm_compute. reflexivity.
Defined.

(** ** The reducer, message by message *)

Lemma join_success_state (s : GameClient) (playerId : string)
    (ps : gmap string Player) (avs : gmap string Avatar) :
  state_of (handleServerMessage (JoinGameOk playerId ps avs) s) =
    state_of (updateViewport (state_of (loadAvatarImages
      (set_myPlayer (ps !! playerId)
         (set_avatars avs (set_players ps (set_myPlayerId (Some playerId) s))))))).
Proof.
  unfold handleServerMessage.
  rewrite !state_of_bind. cbn [gets modify emit value_of state_of fst snd].
  rewrite draw_state. reflexivity.
Qed.

(** X1. A successful join installs the snapshot of the message: the
    local id, the player mapping as sent, the local player record looked
    up in it, and every avatar of the message under its key with its name
    and frames, marked loaded, and no other avatar. The viewport is
    recomputed for the local player; when the mapping has no record under
    the local id, no local player is recorded and the offsets stay. *)
Theorem join_success_installs (s : GameClient) (playerId : string)
    (ps : gmap string Player) (avs : gmap string Avatar) :
  let s' := state_of (handleServerMessage (JoinGameOk playerId ps avs) s) in
  myPlayerId s' = Some playerId ∧
  players s' = ps ∧
  myPlayer s' = ps !! playerId ∧
  (∀ k a, avs !! k = Some a →
     ∃ a', avatars s' !! k = Some a' ∧ a_name a' = a_name a ∧
           a_frames a' = a_frames a ∧ is_Some (a_loadedImages a')) ∧
  (∀ k, avs !! k = None → avatars s' !! k = None) ∧
  viewportSynced s' ∧
  (ps !! playerId = None →
   viewportX s' = viewportX s ∧ viewportY s' = viewportY s).
Proof.
  intros s'. subst s'. rewrite join_success_state.
  set (t := set_myPlayer _ _).
  destruct (loadAvatarImages_avatars t) as [Hin Hout].
  assert (Ht : state_of (loadAvatarImages t) =
               set_avatars (avatars (state_of (loadAvatarImages t)))
                 (set_nextImage (nextImage (state_of (loadAvatarImages t))) t)).
  { rewrite loadAvatarImages_run. reflexivity. }
  set (t1 := state_of (loadAvatarImages t)) in *.
  assert (Hkeep : ∀ u, myPlayerId (state_of (updateViewport u)) = myPlayerId u ∧
                       players (state_of (updateViewport u)) = players u ∧
                       myPlayer (state_of (updateViewport u)) = myPlayer u ∧
                       avatars (state_of (updateViewport u)) = avatars u).
  { intros u. destruct (myPlayer u) as [p|] eqn:Hp.
    - by rewrite (updateViewport_run u p Hp).
    - by rewrite (updateViewport_no_player u Hp). }
  destruct (Hkeep t1) as (H1 & H2 & H3 & H4).
  rewrite H1, H2, H3, H4, Ht. cbn [myPlayerId players myPlayer set_avatars set_nextImage].
  split; [reflexivity|]. split; [reflexivity|]. split; [reflexivity|].
  split.
  { intros k a Hk. destruct (Hin k a Hk) as (a' & Ha' & Hn & Hf & Hl & _). eauto 10. }
  split; [exact Hout|]. split; [apply updateViewport_synced|].
  intros Hnone. rewrite updateViewport_no_player.
  - rewrite Ht. split; reflexivity.
  - rewrite Ht. exact Hnone.
Qed.

(** The end-to-end instance of the specification: player 1 at (100, 100),
    canvas 800 by 600, world 2048: the viewport is (0, 0). *)
Example join_success_example :
  myPlayer example_session = Some example_player ∧
  (viewportX example_session, viewportY example_session) = (0%Q, 0%Q).
Proof. split; reflexivity. Qed.

Lemma player_joined_state (s : GameClient) (player : Player) (avatar : Avatar) :
  state_of (handleServerMessage (PlayerJoined player avatar) s) =
    state_of (loadAvatarImages
      (set_avatars (<[a_name avatar := avatar]> (avatars s))
         (set_players (<[p_id player := player]> (players s)) s))).
Proof.
  unfold handleServerMessage.
  rewrite !state_of_bind. cbn [gets modify emit value_of state_of fst snd].
  rewrite draw_state. reflexivity.
Qed.

Lemma loadAvatarImages_frame (s : GameClient) :
  state_of (loadAvatarImages s) =
    set_avatars (avatars (state_of (loadAvatarImages s)))
      (set_nextImage (nextImage (state_of (loadAvatarImages s))) s).
Proof. rewrite loadAvatarImages_run. reflexivity. Qed.

(** X2. A [player_joined] message enters the player under its id
    and touches no other player; it enters the avatar under its name, with
    the name and frames of the message, marked loaded; every other avatar
    stays under its key with its name and frames. The local player record,
    the local id and the viewport offsets stay as they were. *)
Theorem player_joined_enters (s : GameClient) (player : Player) (avatar : Avatar) :
  let s' := state_of (handleServerMessage (PlayerJoined player avatar) s) in
  players s' = <[p_id player := player]> (players s) ∧
  players s' !! p_id player = Some player ∧
  (∀ id, id ≠ p_id player → players s' !! id = players s !! id) ∧
  (∃ a', avatars s' !! a_name avatar = Some a' ∧ a_name a' = a_name avatar ∧
         a_frames a' = a_frames avatar ∧ is_Some (a_loadedImages a')) ∧
  (∀ k a, k ≠ a_name avatar → avatars s !! k = Some a →
     ∃ a', avatars s' !! k = Some a' ∧ a_name a' = a_name a ∧
           a_frames a' = a_frames a) ∧
  myPlayerId s' = myPlayerId s ∧ myPlayer s' = myPlayer s ∧
  viewportX s' = viewportX s ∧ viewportY s' = viewportY s.
Proof.
  intros s'. subst s'. rewrite player_joined_state.
  set (t := set_avatars _ _).
  destruct (loadAvatarImages_avatars t) as [Hin _].
  rewrite (loadAvatarImages_frame t).
  cbn [players myPlayerId myPlayer viewportX viewportY set_avatars set_nextImage
       avatars].
  split; [reflexivity|]. split; [apply lookup_insert_eq|].
  split; [intros id Hid; by apply lookup_insert_ne|].
  split.
  { destruct (Hin (a_name avatar) avatar) as (a' & Ha' & Hn & Hf & Hl & _).
    - subst t. cbn [avatars set_avatars]. apply lookup_insert_eq.
    - eauto 10. }
  split; [|repeat split].
  intros k a Hk Ha.
  destruct (Hin k a) as (a' & Ha' & Hn & Hf & _).
  - subst t. cbn [avatars set_avatars]. by rewrite lookup_insert_ne.
  - eauto.
Qed.

(** X3. A player who joins and then leaves is gone from the player
    mapping, which is again the mapping from before when the id was new;
    the avatar the join brought stays in the avatar mapping, loaded. *)
Theorem player_joined_then_left (s : GameClient) (player : Player) (avatar : Avatar) :
  players s !! p_id player = None →
  let s1 := state_of (handleServerMessage (PlayerJoined player avatar) s) in
  let s2 := state_of (handleServerMessage (PlayerLeft (p_id player)) s1) in
  players s2 = players s ∧
  avatars s2 = avatars s1 ∧
  ∃ a', avatars s2 !! a_name avatar = Some a' ∧ is_Some (a_loadedImages a').
Proof.
  intros Hnew s1 s2. subst s2. rewrite player_left_state.
  cbn [players avatars set_players].
  assert (Hp : players s1 = <[p_id player := player]> (players s)).
  { subst s1. rewrite player_joined_state, loadAvatarImages_frame. reflexivity. }
  rewrite Hp. split; [by apply delete_insert_id|]. split; [reflexivity|].
  subst s1. rewrite player_joined_state.
  set (t := set_avatars _ _).
  destruct (loadAvatarImages_avatars t) as [Hin _].
  destruct (Hin (a_name avatar) avatar) as (a' & Ha' & _ & _ & Hl & _).
  - subst t. cbn [avatars set_avatars]. apply lookup_insert_eq.
  - eauto.
Qed.

Lemma player_joined_then_left_witness :
  let player := mkPlayer "2" 300 400 "up" None "Guest" "hero" in
  let s1 := state_of (handleServerMessage (PlayerJoined player example_avatar)
                        example_session) in
  let s2 := state_of (handleServerMessage (PlayerLeft "2") s1) in
  players example_session !! "2" = None ∧ players s2 = players example_session.
Proof.
  intros player s1 s2. split; [reflexivity|].
  apply (player_joined_then_left example_session player example_avatar).
  reflexivity.
Defined.

(** *** Decoding again *)

Lemma flat_map_nil {A B} (f : A → list B) (l : list A) :
  (∀ x, x ∈ l → f x = []) → flat_map f l = [].
Proof.
  induction l as [|x l IH]; intros H; [reflexivity|]. cbn.
  rewrite (H x) by (apply elem_of_cons; by left).
  apply IH. intros y Hy. apply H, elem_of_cons. by right.
Qed.

Lemma flat_map_single {B} (f : Avatar → list B) (l : list (string * Avatar))
    (k : string) (a : Avatar) :
  NoDup l.*1 → (k, a) ∈ l →
  (∀ k' a', (k', a') ∈ l → k' ≠ k → f a' = []) →
  flat_map f l.*2 = f a.
Proof.
  induction l as [|[k1 a1] l IH]; intros Hnd Hin Hrest.
  - by apply elem_of_nil in Hin.
  - cbn in Hnd. apply NoDup_cons in Hnd as [Hk1 Hnd].
    cbn [fmap list_fmap snd flat_map].
    apply elem_of_cons in Hin as [[= <- <-]|Hin].
    + rewrite flat_map_nil; [apply app_nil_r|].
      intros a' Ha'. apply list_elem_of_fmap in Ha' as ([k' a''] & -> & Hin').
      apply (Hrest k' a''); [apply elem_of_cons; by right|].
      intros ->. apply Hk1, list_elem_of_fmap. by exists (k, a'').
    + rewrite (Hrest k1 a1); [|apply elem_of_cons; by left|].
      * apply IH; [exact Hnd|exact Hin|].
        intros k' a' Hin' Hne. apply (Hrest k' a'); [|exact Hne].
        apply elem_of_cons. by right.
      * intros ->. apply Hk1, list_elem_of_fmap. by exists (k, a).
Qed.

Lemma pendingFrames_insert (avs : gmap string Avatar) (k : string) (a : Avatar) :
  allLoaded avs → a_loadedImages a = None →
  pendingFrames (<[k := a]> avs) = framesOf a.
Proof.
  intros Hall Ha. unfold pendingFrames, Object_values.
  rewrite (flat_map_single _ _ k a).
  - by rewrite Ha.
  - apply NoDup_fst_map_to_list.
  - apply elem_of_map_to_list, lookup_insert_eq.
  - intros k' a' Hin Hne. apply elem_of_map_to_list in Hin.
    rewrite lookup_insert_ne in Hin by done.
    by destruct (Hall k' a' Hin) as [L ->].
Qed.

Lemma player_joined_effects (s : GameClient) (player : Player) (avatar : Avatar) :
  let t := set_avatars (<[a_name avatar := avatar]> (avatars s))
             (set_players (<[p_id player := player]> (players s)) s) in
  effects_of (handleServerMessage (PlayerJoined player avatar) s) =
    ConsoleLog "Received message:"
    :: effects_of (loadAvatarImages t)
       ++ effects_of (draw (state_of (loadAvatarImages t))).
Proof.
  intros t. unfold handleServerMessage.
  rewrite !effects_of_bind.
  cbn [gets modify emit value_of state_of effects_of fst snd app].
  reflexivity.
Qed.

(** X4. A [player_joined] message whose avatar arrives without a
    cache (as parsed from the wire) makes the client decode every frame of
    that avatar, one fresh image per frame, and nothing else, when the
    avatars it already has are loaded. This holds also when an avatar of
    that name was already loaded: the message's record replaces it and is
    decoded again. *)
Theorem player_joined_decodes_avatar (s : GameClient) (player : Player)
    (avatar : Avatar) :
  allLoaded (avatars s) → a_loadedImages avatar = None →
  ∃ imgs,
    List.filter isDecode
      (effects_of (handleServerMessage (PlayerJoined player avatar) s)) =
      Decode <$> imgs ∧
    img_src <$> imgs = framesOf avatar ∧
    img_id <$> imgs = seq (nextImage s) (length imgs).
Proof.
  intros Hall Hav. rewrite player_joined_effects.
  set (t := set_avatars _ _).
  rewrite loadAvatarImages_run. cbn [effects_of state_of fst snd].
  exists (avsDecoded (nextImage t) (Object_entries (avatars t))).
  split; [|split].
  - cbn [List.filter isDecode]. rewrite List.filter_app.
    rewrite (filter_none isDecode (effects_of (draw _)));
      [|by apply (emits_draw (λ e, negb (isDecode e)))].
    rewrite app_nil_r.
    induction (avsDecoded _ _) as [|img imgs IH]; [reflexivity|].
    cbn. by rewrite IH.
  - rewrite avsDecoded_src. subst t. cbn [avatars set_avatars].
    by apply pendingFrames_insert.
  - apply avsDecoded_id.
Qed.

Lemma player_joined_decodes_avatar_witness :
  let player := mkPlayer "2" 300 400 "up" None "Guest" "hero" in
  let s := set_avatars {[ "hero" := markLoaded 1 example_avatar ]}
             (construct 800 600) in
  a_loadedImages example_avatar = None ∧
  ∃ imgs,
    List.filter isDecode
      (effects_of (handleServerMessage (PlayerJoined player example_avatar) s))
      = Decode <$> imgs ∧
    img_src <$> imgs = framesOf example_avatar.
Proof.
  intros player s. split; [reflexivity|].
  destruct (player_joined_decodes_avatar s player example_avatar)
    as (imgs & H1 & H2 & _).
  - intros k a Hk. subst s. cbn [avatars set_avatars] in Hk.
    apply lookup_singleton_Some in Hk as [_ <-]. cbn. eauto.
  - reflexivity.
  - exists imgs. split; assumption.
Defined.

(** *** Moves of the local player *)

Lemma players_moved_full_state (s : GameClient) (moved : gmap string Player) :
  state_of (handleServerMessage (PlayersMoved moved) s) =
    state_of (updateViewport (set_players (Object_assign (players s) moved) s)).
Proof.
  unfold handleServerMessage.
  rewrite !state_of_bind. cbn [gets modify emit value_of state_of fst snd].
  apply draw_state.
Qed.

Lemma synced_updateViewport_id (s : GameClient) :
  viewportSynced s → state_of (updateViewport s) = s.
Proof.
  intros Hs. destruct (myPlayer s) as [p|] eqn:Hp.
  - rewrite (updateViewport_run s p Hp). cbn [state_of fst snd].
    destruct (Hs p Hp) as [HX HY]. unfold clampedOffset in HX, HY.
    rewrite <- HX, <- HY. destruct s; reflexivity.
  - by rewrite (updateViewport_no_player s Hp).
Qed.

(** X5. In a running client a [players_moved] message changes the
    player mapping and nothing else. The record of the local player taken
    at the join and the viewport offsets stay as they were, also when the
    message carries a new record for the local id: the viewport does not
    follow the moves of the local player. *)
Theorem players_moved_keeps_viewport (innerWidth innerHeight : Q)
    (evs : list Event) (moved : gmap string Player) :
  let s := state_of (run evs (construct innerWidth innerHeight)) in
  let s' := state_of (handleServerMessage (PlayersMoved moved) s) in
  s' = set_players (Object_assign (players s) moved) s ∧
  myPlayer s' = myPlayer s ∧
  viewportX s' = viewportX s ∧ viewportY s' = viewportY s.
Proof.
  intros s s'.
  assert (E : s' = set_players (Object_assign (players s) moved) s).
  { subst s'. rewrite players_moved_full_state.
    apply synced_updateViewport_id.
    destruct (viewportInvariant_run innerWidth innerHeight evs) as (_ & _ & _ & Hs).
    exact Hs. }
  rewrite E. repeat split.
Qed.

Lemma players_moved_keeps_viewport_witness :
  let moved : gmap string Player :=
    {[ "1" := mkPlayer "1" 1500 1500 "up" None "Sharan" "hero" ]} in
  let s' := state_of (handleServerMessage (PlayersMoved moved) example_session) in
  players s' !! "1" = Some (mkPlayer "1" 1500 1500 "up" None "Sharan" "hero") ∧
  myPlayer s' = myPlayer example_session ∧
  viewportX s' = viewportX example_session ∧
  viewportY s' = viewportY example_session.
Proof.
  intros moved s'. split; [reflexivity|].
  destruct (players_moved_keeps_viewport 800 600
              [SocketOpen; SocketMessage (Some example_join)] moved)
    as (_ & Hp & Hx & Hy).
  exact (conj Hp (conj Hx Hy)).
Defined.

(** ** The input controller, in general *)

Lemma handleKeyDown_other (s : GameClient) (key : string) :
  keyDirection key = None → handleKeyDown key s = (tt, s, []).
Proof.
  intros Hk. unfold handleKeyDown. run_js.
  destruct (negb (connected s) || negb (socket s)); [reflexivity|].
  rewrite Hk. reflexivity.
Qed.

Lemma inputConsistent_handleKeyDown (key : string) :
  preserves inputConsistent (handleKeyDown key).
Proof.
  intros s (Hkeys & Hdir & Hd).
  destruct (ready s) eqn:Hr; [|by rewrite handleKeyDown_not_ready].
  destruct (keyDirection key) as [d|] eqn:Hk; [|by rewrite handleKeyDown_other].
  rewrite (handleKeyDown_arrow s key d Hr Hk).
  apply keyDirection_Some in Hk as [Hkey Hdd].
  cbn [state_of fst snd]. split; [|split].
  - cbn [keysPressed set_currentDirection set_keysPressed]. intros k v Hkv.
    apply lookup_insert_Some in Hkv as [[<- <-]|[_ Hkv]]; [done|by apply Hkeys].
  - cbn [keysPressed currentDirection set_currentDirection set_keysPressed].
    split; [discriminate|]. intros He. by apply insert_non_empty in He.
  - cbn [currentDirection set_currentDirection]. by intros d' [= <-].
Qed.

Lemma inputConsistent_handleKeyUp (key : string) :
  preserves inputConsistent (handleKeyUp key).
Proof.
  intros s (Hkeys & Hdir & Hd).
  destruct (ready s) eqn:Hr; [|by rewrite handleKeyUp_not_ready].
  destruct (truthyAt (keysPressed s) key) eqn:Hk;
    [|by rewrite handleKeyUp_unset].
  rewrite (handleKeyUp_set s key Hr Hk).
  assert (Hsub : ∀ k v, delete key (keysPressed s) !! k = Some v →
                        k ∈ movementKeys ∧ v = true).
  { intros k v Hkv. apply lookup_delete_Some in Hkv as [_ Hkv]. by apply Hkeys. }
  destruct (hasMovementKeys (delete key (keysPressed s))) eqn:Hm;
    cbn [state_of fst snd]; (split; [exact Hsub|split]).
  - cbn [keysPressed currentDirection set_keysPressed].
    apply hasMovementKeys_true in Hm as (k & _ & [v Hv]). split.
    + intros Hnone. apply Hdir in Hnone.
      apply lookup_delete_Some in Hv as [_ Hv]. rewrite Hnone in Hv.
      by rewrite lookup_empty in Hv.
    + intros He. rewrite He in Hv. by rewrite lookup_empty in Hv.
  - exact Hd.
  - cbn [keysPressed currentDirection set_keysPressed set_currentDirection].
    split; [|reflexivity]. intros _. apply map_empty. intros k.
    destruct (delete key (keysPressed s) !! k) as [v|] eqn:Hv; [|reflexivity].
    destruct (Hsub k v Hv) as [Hmk _].
    pose proof (proj1 (hasMovementKeys_false _) Hm k Hmk). congruence.
  - cbn [currentDirection set_currentDirection]. discriminate.
Qed.

Lemma inputConsistent_dispatch (ev : Event) :
  preserves inputConsistent (dispatch ev).
Proof.
  destruct ev as [w h| | | |[[]|]| | |key|key]; cbn [dispatch];
    try apply inputConsistent_handleKeyDown;
    try apply inputConsistent_handleKeyUp;
    unfold handleServerMessage, joinGame; keeps_steps.
Qed.

Lemma inputConsistent_run (innerWidth innerHeight : Q) (evs : list Event) :
  inputConsistent (state_of (run evs (construct innerWidth innerHeight))).
Proof.
  apply (preserves_run _ evs inputConsistent_dispatch).
  split; [|split].
  - intros k v Hk. cbn in Hk. by rewrite lookup_empty in Hk.
  - split; reflexivity.
  - discriminate.
Qed.

(** X14. In a running client, whatever events it has handled: only
    the four arrow keys are recorded as held, each with [true]; a
    direction is current exactly when some key is recorded; and the current
    direction is one of up, down, left, right. *)
Theorem input_always_consistent (innerWidth innerHeight : Q) (evs : list Event) :
  let s := state_of (run evs (construct innerWidth innerHeight)) in
  (∀ k v, keysPressed s !! k = Some v → k ∈ movementKeys ∧ v = true) ∧
  (currentDirection s = None ↔ keysPressed s = ∅) ∧
  (∀ d, currentDirection s = Some d → d ∈ directions).
Proof. intros s. subst s. apply inputConsistent_run. Qed.

(** X15. A key that is not one of the four arrows does nothing in a
    running client when it is pressed: no state change, no command, no
    suppression of the key's default action. Released, it does nothing
    either, provided its name is not the name of a member every object
    inherits (for such a name the test [this.keysPressed[key]] succeeds). *)
Theorem other_keys_ignored (innerWidth innerHeight : Q) (evs : list Event)
    (key : string) :
  key ∉ movementKeys →
  let s := state_of (run evs (construct innerWidth innerHeight)) in
  handleKeyDown key s = (tt, s, []) ∧
  (key ∉ objectPrototypeMembers → handleKeyUp key s = (tt, s, [])).
Proof.
  intros Hkey s. split.
  - apply handleKeyDown_other. by apply keyDirection_None.
  - intros Hown. apply handleKeyUp_not_held; [|exact Hown].
    destruct (keysPressed s !! key) as [v|] eqn:Hk; [|reflexivity].
    destruct (inputConsistent_run innerWidth innerHeight evs) as (Hkeys & _).
    by destruct (Hkeys key v Hk).
Qed.

Lemma other_keys_ignored_witness :
  ("Enter" ∉ movementKeys) ∧ ("Enter" ∉ objectPrototypeMembers) ∧
  handleKeyDown "Enter" example_session = (tt, example_session, []) ∧
  handleKeyUp "Enter" example_session = (tt, example_session, []).
Proof.
  assert (H : "Enter" ∉ movementKeys).
  { unfold movementKeys. intros Hin.
    repeat (apply elem_of_cons in Hin as [Heq|Hin]; [discriminate|]).
    by apply elem_of_nil in Hin. }
  assert (H' : "Enter" ∉ objectPrototypeMembers).
  { unfold objectPrototypeMembers. intros Hin.
    repeat (apply elem_of_cons in Hin as [Heq|Hin]; [discriminate|]).
    by apply elem_of_nil in Hin. }
  split; [exact H|]. split; [exact H'|].
  destruct (other_keys_ignored 800 600
              [SocketOpen; SocketMessage (Some example_join)] "Enter" H)
    as [Hdown Hup].
  split; [exact Hdown|exact (Hup H')].
Defined.

(** X16. With the connection ready, the release of a held key
    sends a stop exactly when no arrow key remains recorded. When another
    arrow key is still recorded it sends nothing and the current direction
    stays as it is, even if it is the direction of the released key. *)
Theorem release_stops_only_when_last (s : GameClient) (key : string) :
  connected s = true → socket s = true →
  keysPressed s !! key = Some true →
  ((∃ k, k ≠ key ∧ k ∈ movementKeys ∧ is_Some (keysPressed s !! k)) →
   handleKeyUp key s = (tt, set_keysPressed (delete key (keysPressed s)) s, []) ∧
   currentDirection (state_of (handleKeyUp key s)) = currentDirection s) ∧
  ((∀ k, k ≠ key → k ∈ movementKeys → keysPressed s !! k = None) →
   handleKeyUp key s =
     (tt, set_currentDirection None
            (set_keysPressed (delete key (keysPressed s)) s),
      [SocketSend Stop])).
Proof.
  intros Hc Hs Hk.
  assert (Hr : ready s = true) by (unfold ready; by rewrite Hc, Hs).
  rewrite (handleKeyUp_held s key Hr Hk). split.
  - intros (k & Hne & Hmk & Hsome).
    assert (Hm : hasMovementKeys (delete key (keysPressed s)) = true).
    { apply hasMovementKeys_true. exists k. split; [exact Hmk|].
      by rewrite lookup_delete_ne. }
    rewrite Hm. split; reflexivity.
  - intros Hnone.
    assert (Hm : hasMovementKeys (delete key (keysPressed s)) = false).
    { apply hasMovementKeys_false. intros k Hmk.
      destruct (decide (k = key)) as [->|Hne]; [apply lookup_delete_eq|].
      rewrite lookup_delete_ne by done. by apply Hnone. }
    by rewrite Hm.
Qed.

Lemma release_stops_only_when_last_witness :
  let s := state_of (run [SocketOpen; KeyDown "ArrowUp"; KeyDown "ArrowDown"]
                       (construct 800 600)) in
  keysPressed s !! "ArrowDown" = Some true ∧
  effects_of (handleKeyUp "ArrowDown" s) = [] ∧
  currentDirection (state_of (handleKeyUp "ArrowDown" s)) = Some "down".
Proof.
  intros s. split; [reflexivity|].
  destruct (release_stops_only_when_last s "ArrowDown" eq_refl eq_refl eq_refl)
    as [H _].
  destruct H as [H1 H2].
  - exists "ArrowUp". split; [done|]. split; [|by eexists].
    unfold movementKeys. apply elem_of_cons. by left.
  - split; [by rewrite H1|]. by rewrite H2.
Defined.

(** X17. With the connection ready, pressing an arrow key that is
    already recorded as held (a key repeat) sends the move command again;
    the record of held keys is unchanged. *)
Theorem repeated_press_resends (s : GameClient) (key direction : string) :
  connected s = true → socket s = true →
  keyDirection key = Some direction →
  keysPressed s !! key = Some true →
  handleKeyDown key s =
    (tt, set_currentDirection (Some direction) s,
     [PreventDefault; SocketSend (Move direction)]).
Proof.
  intros Hc Hs Hk Hheld.
  assert (Hr : ready s = true) by (unfold ready; by rewrite Hc, Hs).
  rewrite (handleKeyDown_arrow s key direction Hr Hk).
  rewrite (insert_id _ _ _ Hheld). destruct s; reflexivity.
Qed.

Lemma repeated_press_resends_witness :
  let s := state_of (run [SocketOpen; KeyDown "ArrowLeft"] (construct 800 600)) in
  keysPressed s !! "ArrowLeft" = Some true ∧
  effects_of (handleKeyDown "ArrowLeft" s) =
    [PreventDefault; SocketSend (Move "left")].
Proof.
  intros s. split; [reflexivity|].
  by rewrite (repeated_press_resends s "ArrowLeft" "left" eq_refl eq_refl eq_refl eq_refl).
Defined.

(** ** What is drawn *)

Lemma Qlt_bool_true (a b : Q) : Qlt_bool a b = true ↔ (a < b)%Q.
Proof.
  unfold Qlt_bool. rewrite negb_true_iff, <- not_true_iff_false, Qle_bool_iff.
  split; [apply Qnot_le_lt|apply Qlt_not_le].
Qed.

Lemma Qlt_bool_false (a b : Q) : Qlt_bool a b = false ↔ (b <= a)%Q.
Proof. unfold Qlt_bool. by rewrite negb_false_iff, Qle_bool_iff. Qed.

(** X12. A player draws nothing when its avatar is not in the avatar
    mapping or not loaded, when the avatar has no image for the player's
    facing and frame (frame 0 when the player has none), or when its
    position on the screen lies more than 50 beyond the canvas on any
    side. *)
Theorem drawPlayer_skips (s : GameClient) (player : Player) :
  let sx := (p_x player - viewportX s)%Q in
  let sy := (p_y player - viewportY s)%Q in
  let frame :=
    avatar ← avatars s !! p_avatar player;
    loadedImages ← a_loadedImages avatar;
    imgs ← loadedImages !! p_facing player;
    imgs !! default 0%nat (p_animationFrame player) in
  frame = None ∨
  (sx < -50)%Q ∨ (canvasWidth s + 50 < sx)%Q ∨
  (sy < -50)%Q ∨ (canvasHeight s + 50 < sy)%Q →
  drawPlayer player s = (tt, s, []).
Proof.
  intros sx sy frame H. unfold drawPlayer. run_js. subst frame.
  destruct (avatars s !! p_avatar player) as [avatar|]; [|reflexivity]. cbn in *.
  destruct (a_loadedImages avatar) as [loadedImages|]; [|reflexivity]. cbn in *.
  fold sx sy.
  destruct (Qlt_bool sx (-50) || Qgt_bool sx (canvasWidth s + 50) ||
            Qlt_bool sy (-50) || Qgt_bool sy (canvasHeight s + 50)) eqn:Hvis;
    [reflexivity|].
  apply orb_false_iff in Hvis as [Hvis H4]. apply orb_false_iff in Hvis as [Hvis H3].
  apply orb_false_iff in Hvis as [H1 H2]. unfold Qgt_bool in *.
  apply Qlt_bool_false in H1, H2, H3, H4.
  destruct H as [H|[H|[H|[H|H]]]]; try (exfalso; lra).
  destruct (loadedImages !! p_facing player) as [imgs|]; [|reflexivity]. cbn in H.
  by rewrite H.
Qed.

Lemma drawPlayer_skips_witness :
  let far := mkPlayer "9" 900 100 "down" None "Far" "hero" in
  (canvasWidth example_session + 50 < p_x far - viewportX example_session)%Q ∧
  drawPlayer far example_session = (tt, example_session, []).
Proof.
  intros far. split; [reflexivity|].
  apply (drawPlayer_skips example_session far).
  right. right. left. reflexivity.
Defined.

(** X13. A player whose avatar is loaded with an image for its facing
    and frame, and whose screen position lies within 50 of the canvas on
    every side, is drawn by exactly these calls: the image, 32 by 32, with
    its bottom centre at the player's screen position (world position
    minus viewport offset), then the name, stroked and filled, centred 5
    above the sprite. *)
Theorem drawPlayer_draws (s : GameClient) (player : Player)
    (avatar : Avatar) (loadedImages : gmap string (list Image))
    (imgs : list Image) (img : Image) :
  let sx := (p_x player - viewportX s)%Q in
  let sy := (p_y player - viewportY s)%Q in
  avatars s !! p_avatar player = Some avatar →
  a_loadedImages avatar = Some loadedImages →
  loadedImages !! p_facing player = Some imgs →
  imgs !! default 0%nat (p_animationFrame player) = Some img →
  (-50 <= sx <= canvasWidth s + 50)%Q →
  (-50 <= sy <= canvasHeight s + 50)%Q →
  drawPlayer player s =
    (tt, s,
     [Canvas (DrawImage5 img (sx - 32 / 2) (sy - 32) 32 32);
      Canvas (SetFillStyle "white"); Canvas (SetStrokeStyle "black");
      Canvas (SetLineWidth 2); Canvas (SetFont "12px Arial");
      Canvas (SetTextAlign "center");
      Canvas (StrokeText (p_username player) sx (sy - 32 - 5));
      Canvas (FillText (p_username player) sx (sy - 32 - 5))]).
Proof.
  intros sx sy Hav Hl Hf Hi [Hx1 Hx2] [Hy1 Hy2].
  unfold drawPlayer. run_js. rewrite Hav. cbn. rewrite Hl. cbn. fold sx sy.
  assert (Hvis : Qlt_bool sx (-50) || Qgt_bool sx (canvasWidth s + 50) ||
                 Qlt_bool sy (-50) || Qgt_bool sy (canvasHeight s + 50) = false).
  { unfold Qgt_bool. repeat (apply orb_false_iff; split);
      by apply Qlt_bool_false. }
  rewrite Hvis, Hf, Hi. reflexivity.
Qed.

Lemma drawPlayer_draws_witness :
  ∃ avatar loadedImages imgs,
    avatars example_session !! "hero" = Some avatar ∧
    a_loadedImages avatar = Some loadedImages ∧
    loadedImages !! "down" = Some imgs ∧
    effects_of (drawPlayer example_player example_session) =
      [Canvas (DrawImage5 (mkImage 2 "AAA" false) (100 - 0 - 32 / 2) (100 - 0 - 32) 32 32);
       Canvas (SetFillStyle "white"); Canvas (SetStrokeStyle "black");
       Canvas (SetLineWidth 2); Canvas (SetFont "12px Arial");
       Canvas (SetTextAlign "center");
       Canvas (StrokeText "Sharan" (100 - 0) (100 - 0 - 32 - 5));
       Canvas (FillText "Sharan" (100 - 0) (100 - 0 - 32 - 5))].
Proof.
  do 3 eexists. split; [vm_compute; reflexivity|].
  split; [reflexivity|]. split; [vm_compute; reflexivity|].
  erewrite (drawPlayer_draws example_session example_player).
  - reflexivity.
  - vm_compute. reflexivity.
  - reflexivity.
  - vm_compute. reflexivity.
  - vm_compute. reflexivity.
  - split; vm_compute; discriminate.
  - split; vm_compute; discriminate.
Defined.

(** X11. [draw], with a world image, clears the canvas, blits the
    viewport rectangle of the world image onto the whole canvas, and then
    issues the calls of every player of the mapping, each player once and
    one player after the other, all against the same state. In which
    order the players come is left open. *)
Theorem draw_composition (s : GameClient) (img : Image) :
  worldImage s = Some img →
  ∃ order,
    order ≡ₚ (map_to_list (players s)).*2 ∧
    effects_of (draw s) =
      Canvas (ClearRect 0 0 (canvasWidth s) (canvasHeight s))
      :: Canvas (DrawImage9 img (viewportX s) (viewportY s)
                   (canvasWidth s) (canvasHeight s)
                   0 0 (canvasWidth s) (canvasHeight s))
      :: flat_map (λ player, effects_of (drawPlayer player s)) order.
Proof.
  intros H. exists (Object_values (players s)). split; [reflexivity|].
  unfold draw. rewrite effects_of_bind.
  cbn [gets value_of state_of effects_of fst snd]. rewrite H.
  rewrite !effects_of_bind. cbn [gets emit value_of state_of effects_of fst snd app].
  do 2 f_equal.
  induction (Object_values (players s)) as [|player ps IH]; [reflexivity|].
  cbn [forEach flat_map]. rewrite effects_of_bind, drawPlayer_state. by rewrite IH.
Qed.

Lemma draw_composition_witness :
  let guest := mkPlayer "2" 300 400 "up" None "Guest" "hero" in
  let s := state_of (handleServerMessage (PlayerJoined guest example_avatar)
                       example_session) in
  worldImage s = Some (mkImage 0 "world.jpg" false) ∧
  ∃ order,
    order ≡ₚ [example_player; guest] ∧
    effects_of (draw s) =
      Canvas (ClearRect 0 0 800 600)
      :: Canvas (DrawImage9 (mkImage 0 "world.jpg" false) 0 0 800 600 0 0 800 600)
      :: flat_map (λ player, effects_of (drawPlayer player s)) order.
Proof.
  intros guest s. split; [reflexivity|].
  destruct (draw_composition s (mkImage 0 "world.jpg" false) eq_refl)
    as (order & Hperm & Heff).
  exists order. split; [|exact Heff].
  rewrite Hperm. vm_compute. reflexivity.
Defined.
